(** * Diarization post-processing of recipes/AMI/Diarization/experiment.py

    A shallow embedding of the agglomerative traceback
    ([trace_back_cluster_labels]), of the boundary resolver
    ([is_overlapped], [merge_ssegs_same_speaker], [distribute_overlap], the
    tail of [do_sc]) and of the RTTM writer ([write_rttm]), then of the
    code around them ([get_oracle_num_spkrs], [prepare_subset_csv], the
    recording ids of [diarizer], the label loop of [do_sc], and
    [_get_chunks] of ami_prepare.py), followed by the properties established
    about them.

    Conventions.
    - Python floats are modelled by exact rationals [Q]; float comparison
      [<], [>], [==] is [Qlt], [Qle], [Qeq].
    - A sub-segment, the Python list [[rec_id, sseg_start, sseg_end, spkr_id]],
      is the record [subseg].  The passes mutate such lists in place.  Every
      sub-segment handed to them by [do_sc] is a fresh list, and each pass
      stops mutating an object before it appends it to its output, so an
      object's value at the time it is appended is its final value: the
      loops below thread the current accumulator ([sseg]) and the output
      ([new_lol]) as explicit state.
    - A raised Python exception is the [Raise] case of [result].
    - [_get_chunks] rounds twice on doubles before it truncates; that
      computation is not rebuilt on [Q] but taken as a parameter of the
      model ([float_num_chunks]). *)

From Stdlib Require Import Ascii QArith Qround Lqa Lia Sorted.
From stdpp Require Import base option list strings gmap fin_maps pretty.

Local Open Scope Q_scope.

#[local] Set Warnings "-clear-no-such-hyp".

(** ** Python exceptions *)

Inductive py_error : Type :=
  | IndexError          (* list index out of range *)
  | UnboundLocalError   (* local variable referenced before assignment *)
  | KeyError.           (* missing dictionary key *)

Inductive result (A : Type) : Type :=
  | OK (a : A)
  | Raise (e : py_error).
Arguments OK {A} a.
Arguments Raise {A} e.

Definition rbind {A B : Type} (r : result A) (k : A -> result B) : result B :=
  match r with
  | OK a => k a
  | Raise e => Raise e
  end.

Notation "'let!' x ':=' r 'in' k" := (rbind r (fun x => k))
  (at level 10, x name, r at level 100, k at level 200).

(** ** Sub-segments *)

Record subseg : Type := mk_sseg {
  rec_id : string;      (* seg[0] *)
  sseg_start : Q;       (* seg[1] *)
  sseg_end : Q;         (* seg[2] *)
  spkr_id : string      (* seg[3] *)
}.

(** [seg[2] = v] and [seg[1] = v] *)
Definition set_end (s : subseg) (v : Q) : subseg :=
  mk_sseg (rec_id s) (sseg_start s) v (spkr_id s).
Definition set_start (s : subseg) (v : Q) : subseg :=
  mk_sseg (rec_id s) v (sseg_end s) (spkr_id s).

(** Python [==] on two sub-segment lists: field by field. *)
Definition sseg_eqb (s t : subseg) : bool :=
  String.eqb (rec_id s) (rec_id t)
  && Qeq_bool (sseg_start s) (sseg_start t)
  && Qeq_bool (sseg_end s) (sseg_end t)
  && String.eqb (spkr_id s) (spkr_id t).

(** Python [==] on two lists of sub-segments. *)
Fixpoint lol_eqb (l1 l2 : list subseg) : bool :=
  match l1, l2 with
  | [], [] => true
  | s :: l1', t :: l2' => sseg_eqb s t && lol_eqb l1' l2'
  | _, _ => false
  end.

(** ** Boundary resolver *)

(** [is_overlapped(end1, start2)]: [False] iff [start2 > end1]. *)
Definition is_overlapped (end1 start2 : Q) : bool :=
  if Qlt_le_dec end1 start2 then false else true.

(** The loop of [merge_ssegs_same_speaker]: state is the accumulator [sseg]
    and the output [new_lol]; [rest] is [lol[i:]]. *)
Fixpoint merge_loop (sseg : subseg) (new_lol : list subseg) (rest : list subseg)
  : list subseg * subseg :=
  match rest with
  | [] => (new_lol, sseg)
  | next_sseg :: rest' =>
      if is_overlapped (sseg_end sseg) (sseg_start next_sseg)
         && String.eqb (spkr_id sseg) (spkr_id next_sseg)
      then merge_loop (set_end sseg (sseg_end next_sseg)) new_lol rest'
      else merge_loop next_sseg (new_lol ++ [sseg]) rest'
  end.

(** [merge_ssegs_same_speaker(lol)]: [lol[0]] raises on the empty list; the
    function returns [new_lol], the accumulator left in [sseg] is not part
    of it. *)
Definition merge_ssegs_same_speaker (lol : list subseg) : result (list subseg) :=
  match lol with
  | [] => Raise IndexError
  | sseg :: rest => OK (fst (merge_loop sseg [] rest))
  end.

(** The guarded append that both branches of the loop of
    [distribute_overlap] perform:
    [if len(new_lol) == 0: new_lol.append(sseg)] and otherwise
    [if new_lol[-1] != sseg: new_lol.append(sseg)]. *)
Definition append_unless_last (new_lol : list subseg) (sseg : subseg)
  : list subseg :=
  match last new_lol with
  | None => new_lol ++ [sseg]
  | Some prev => if negb (sseg_eqb prev sseg) then new_lol ++ [sseg] else new_lol
  end.

(** State of the loop of [distribute_overlap]: the output [new_lol], the
    current sub-segment [sseg] and the loop variable [next_sseg], which is
    unbound ([None]) until the first iteration assigns it. *)
Record dist_state : Type := mk_dist_state {
  ds_new_lol : list subseg;
  ds_sseg : subseg;
  ds_next_sseg : option subseg
}.

(** One iteration of the loop, with [next_sseg = lol[i]]. *)
Definition distribute_step (st : dist_state) (next_sseg : subseg) : dist_state :=
  let sseg := ds_sseg st in
  let new_lol := ds_new_lol st in
  if is_overlapped (sseg_end sseg) (sseg_start next_sseg) then
    let overlap := sseg_end sseg - sseg_start next_sseg in
    let sseg := set_end sseg (sseg_end sseg - overlap / 2) in
    let next_sseg := set_start next_sseg (sseg_start next_sseg + overlap / 2) in
    let new_lol := append_unless_last new_lol sseg in
    mk_dist_state new_lol next_sseg (Some next_sseg)
  else
    let new_lol := append_unless_last new_lol sseg in
    mk_dist_state new_lol next_sseg (Some next_sseg).

(** [for i in range(1, len(lol))], [rest] being [lol[i:]]. *)
Fixpoint distribute_loop (st : dist_state) (rest : list subseg) : dist_state :=
  match rest with
  | [] => st
  | next_sseg :: rest' => distribute_loop (distribute_step st next_sseg) rest'
  end.

(** [distribute_overlap(lol)]: [lol[0]] raises on the empty list, and the
    final [new_lol.append(next_sseg)] raises when the loop body never ran. *)
Definition distribute_overlap (lol : list subseg) : result (list subseg) :=
  match lol with
  | [] => Raise IndexError
  | sseg :: rest =>
      let st := distribute_loop (mk_dist_state [] sseg None) rest in
      match ds_next_sseg st with
      | None => Raise UnboundLocalError
      | Some next_sseg => OK (ds_new_lol st ++ [next_sseg])
      end
  end.

(** [lol.sort(key=lambda x: float(x[1]))]: a stable sort on the start time;
    an element goes after every element whose key is not greater. *)
Fixpoint insert_by_start (x : subseg) (l : list subseg) : list subseg :=
  match l with
  | [] => [x]
  | y :: l' =>
      if Qlt_le_dec (sseg_start x) (sseg_start y) then x :: y :: l'
      else y :: insert_by_start x l'
  end.

Definition sort_by_start (lol : list subseg) : list subseg :=
  foldl (fun sorted x => insert_by_start x sorted) [] lol.

(** Steps 1 and 2 of [do_sc]: [lol = merge_ssegs_same_speaker(lol)] then
    [lol = distribute_overlap(lol)]. *)
Definition merge_then_distribute (lol : list subseg) : result (list subseg) :=
  let! lol := merge_ssegs_same_speaker lol in
  distribute_overlap lol.

(** The tail of [do_sc], from the sort on. *)
Definition do_sc_boundaries (lol : list subseg) : result (list subseg) :=
  let lol := sort_by_start lol in
  merge_then_distribute lol.

(** Python [==] on the value (or exception) of two calls. *)
Definition result_lol_eqb (r1 r2 : result (list subseg)) : bool :=
  match r1, r2 with
  | OK l1, OK l2 => lol_eqb l1 l2
  | _, _ => false
  end.

(** The five sub-segments of recording R1, sorted by start. *)
Definition scenario : list subseg :=
  [ mk_sseg "R1" 0 2 "A"; mk_sseg "R1" 1 3 "A"; mk_sseg "R1" 3 5 "B";
    mk_sseg "R1" 4 6 "A"; mk_sseg "R1" 5 7 "B" ].


(** ** Agglomerative traceback *)

(** A row of the linkage matrix [cluster_map_traverse]: the two merged
    cluster ids (columns 0 and 1), the merge distance (column 2) and the
    size of the new cluster (column 3), all stored as floats. *)
Record merge_record : Type := mk_merge_record {
  col0 : Q;
  col1 : Q;
  col2 : Q;
  col3 : Q
}.

(** [int(x)] on a float: truncation towards zero. *)
Definition py_int (x : Q) : Z := Z.quot (Qnum x) (Z.pos (Qden x)).

(** [str(n)] on an int. *)
Definition str (n : Z) : string := pretty n.

(** Truth value of [oracle_num_spkrs]: [None] and [0] are falsy. *)
Definition truthy (oracle_num_spkrs : option Z) : bool :=
  match oracle_num_spkrs with
  | None => false
  | Some k => negb (k =? 0)%Z
  end.

(** [len(clusters) <= oracle_num_spkrs], evaluated only when the count is
    truthy. *)
Definition count_reached (clusters : gmap string (list Z))
    (oracle_num_spkrs : option Z) : bool :=
  match oracle_num_spkrs with
  | None => false
  | Some k => (Z.of_nat (size clusters) <=? k)%Z
  end.

(** [clusters[k]] and [clusters.pop(k)]. *)
Definition dict_get (clusters : gmap string (list Z)) (k : string)
  : result (list Z) :=
  match clusters !! k with
  | Some v => OK v
  | None => Raise KeyError
  end.

Definition dict_pop (clusters : gmap string (list Z)) (k : string)
  : result (gmap string (list Z)) :=
  match clusters !! k with
  | Some _ => OK (delete k clusters)
  | None => Raise KeyError
  end.

(** [for i in range(N): clusters[str(i)] = [i]] *)
Definition init_clusters (N : Z) : gmap string (list Z) :=
  foldl (fun clusters i => <[str i := [i]]> clusters) ∅ (seqZ 0 N).

(** The merge performed by one iteration of the [while] loop, on row [i]. *)
Definition merge_step (N i : Z) (row : merge_record)
    (clusters : gmap string (list Z)) : result (gmap string (list Z)) :=
  let a := str (py_int (col0 row)) in
  let b := str (py_int (col1 row)) in
  let new_id := str (N + i) in
  let! ca := dict_get clusters a in
  let! cb := dict_get clusters b in
  let clusters := <[new_id := ca ++ cb]> clusters in
  let! clusters := dict_pop clusters a in
  dict_pop clusters b.

(** [while i < N - 1: ...]; [rows] is [cluster_map_traverse[i:]], so the
    loop condition holds exactly when [rows] is not empty. *)
Fixpoint trace_loop (N : Z) (oracle_num_spkrs : option Z) (i : Z)
    (rows : list merge_record) (clusters : gmap string (list Z))
  : result (gmap string (list Z)) :=
  match rows with
  | [] => OK clusters
  | row :: rows' =>
      let! clusters := merge_step N i row clusters in
      let i := (i + 1)%Z in
      if truthy oracle_num_spkrs && count_reached clusters oracle_num_spkrs
      then OK clusters
      else trace_loop N oracle_num_spkrs i rows' clusters
  end.

Definition trace_back_cluster_labels (cluster_map_traverse : list merge_record)
    (threshold : Q) (oracle_num_spkrs : option Z)
  : result (gmap string (list Z)) :=
  let N := (Z.of_nat (length cluster_map_traverse) + 1)%Z in
  let clusters := init_clusters N in
  trace_loop N oracle_num_spkrs 0 cluster_map_traverse clusters.

(** A linkage matrix over [N] original observations: row [i] names two
    distinct clusters that exist at that point (original ones, or ones
    formed by earlier rows and not merged since) and forms cluster [N + i]. *)
Fixpoint valid_merges (alive : gset Z) (next_id : Z) (rows : list merge_record)
  : bool :=
  match rows with
  | [] => true
  | row :: rows' =>
      let a := py_int (col0 row) in
      let b := py_int (col1 row) in
      bool_decide (a ∈ alive) && bool_decide (b ∈ alive)
      && bool_decide (a ≠ b)
      && valid_merges ({[next_id]} ∪ (alive ∖ {[a; b]})) (next_id + 1) rows'
  end.

Definition valid_linkage (rows : list merge_record) : bool :=
  let N := (Z.of_nat (length rows) + 1)%Z in
  valid_merges (list_to_set (seqZ 0 N)) N rows.

(** The index lists of a cluster dictionary, concatenated. *)
Definition cluster_members (clusters : gmap string (list Z)) : list Z :=
  concat (map snd (map_to_list clusters)).

(** A linkage matrix over five observations. *)
Definition linkage5 : list merge_record :=
  [ mk_merge_record 0 1 0.1 2; mk_merge_record 3 4 0.2 2;
    mk_merge_record 2 5 0.3 3; mk_merge_record 6 7 0.4 5 ].

(** ** RTTM writer *)

Definition newline : string := String "010"%char "".

(** [sep.join(fields)] *)
Fixpoint py_join (sep : string) (fields : list string) : string :=
  match fields with
  | [] => ""
  | [f] => f
  | f :: fields' => f +:+ sep +:+ py_join sep fields'
  end.

Section RTTM.
(** The float library: [round(x, 4)] and [str(x)] on a float. *)
Variable round4 : Q -> Q.
Variable str_float : Q -> string.

(** [new_row] of the first loop of [write_rttm]. *)
Definition rttm_row (rec_id : string) (seg : subseg) : list string :=
  [ "SPEAKER";
    rec_id;
    "0";
    str_float (round4 (sseg_start seg));
    str_float (round4 (sseg_end seg - sseg_start seg));
    "<NA>";
    "<NA>";
    spkr_id seg;
    "<NA>";
    "<NA>" ].

(** [for seg in segs_list: ... rttm.append(new_row)] *)
Definition build_rttm (rec_id : string) (segs_list : list subseg)
  : list (list string) :=
  foldl (fun rttm seg => rttm ++ [rttm_row rec_id seg]) [] segs_list.

(** [for row in rttm: f.write("%s\n" % " ".join(row))], on a file opened
    for writing (its previous content is discarded). *)
Definition write_rows (rttm : list (list string)) : string :=
  foldl (fun f row => f +:+ (py_join " " row +:+ newline)) "" rttm.

(** [write_rttm(segs_list, out_rttm_file)] on a file system that maps
    paths to contents. *)
Definition write_rttm (segs_list : list subseg) (out_rttm_file : string)
    (fs : gmap string string) : result (gmap string string) :=
  match segs_list with
  | [] => Raise IndexError
  | seg0 :: _ =>
      let rec_id := rec_id seg0 in
      let rttm := build_rttm rec_id segs_list in
      OK (<[out_rttm_file := write_rows rttm]> fs)
  end.
End RTTM.

(** Exact-arithmetic instance of the float library, used to evaluate
    [write_rttm] on examples: rounding half to even at the fourth decimal,
    and the decimal rendering of a value with at most four decimals (at
    least one fractional digit, no trailing zeros). *)
Definition round_half_even (x : Q) : Z :=
  let fl := Qfloor x in
  let frac := x - inject_Z fl in
  match Qcompare frac (1 # 2) with
  | Lt => fl
  | Gt => (fl + 1)%Z
  | Eq => if Z.even fl then fl else (fl + 1)%Z
  end.

Definition exact_round4 (x : Q) : Q := inject_Z (round_half_even (x * 10000)) / 10000.

Fixpoint strip_zeros (rev_digits : list Z) : list Z :=
  match rev_digits with
  | 0%Z :: ds => strip_zeros ds
  | _ => rev_digits
  end.

Definition exact_str (x : Q) : string :=
  let n := Z.abs (Qfloor (x * 10000)) in
  let ip := (n / 10000)%Z in
  let fp := (n mod 10000)%Z in
  let ds := [(fp / 1000)%Z; (fp / 100 mod 10)%Z; (fp / 10 mod 10)%Z; (fp mod 10)%Z] in
  let ds := match rev (strip_zeros (rev ds)) with [] => [0%Z] | ds => ds end in
  (if Qlt_le_dec x 0 then "-" else "") +:+ str ip +:+ "."
  +:+ foldr (fun d acc => str d +:+ acc) "" ds.

(** ** Strings: [in], [startswith], [rstrip], [split], [rsplit] *)

(** [sub in s]: [sub] occurs in [s] as a substring. *)
Fixpoint str_contains (sub s : string) : bool :=
  String.prefix sub s
  || match s with
     | EmptyString => false
     | String _ s' => str_contains sub s'
     end.

(** [s.startswith(p)] *)
Definition startswith (s p : string) : bool := String.prefix p s.

(** [s.split(sep)[0]]: the part of [s] before the first [sep]. *)
Fixpoint split_first (sep : ascii) (s : string) : string :=
  match s with
  | EmptyString => EmptyString
  | String c s' => if Ascii.eqb c sep then EmptyString else String c (split_first sep s')
  end.

(** The last occurrence of [sep] in [s]: [Some (a, b)] when
    [s = a + sep + b] and [sep] does not occur in [b]. *)
Fixpoint split_last (sep : ascii) (s : string) : option (string * string) :=
  match s with
  | EmptyString => None
  | String c s' =>
      match split_last sep s' with
      | Some (a, b) => Some (String c a, b)
      | None => if Ascii.eqb c sep then Some (EmptyString, s') else None
      end
  end.

(** [s.rsplit("_", 2)]: at most two splits, from the right. *)
Definition rsplit2 (s : string) : list string :=
  match split_last "_" s with
  | None => [s]
  | Some (a, c) =>
      match split_last "_" a with
      | None => [a; c]
      | Some (a', b) => [a'; b; c]
      end
  end.

(** [c in s] for a character [c]. *)
Fixpoint has_char (c : ascii) (s : string) : bool :=
  match s with
  | EmptyString => false
  | String d s' => Ascii.eqb d c || has_char c s'
  end.

(** [c.isspace()] on the ASCII characters: tab to carriage return, the
    four separators and the space. *)
Definition ascii_isspace (c : ascii) : bool :=
  let n := nat_of_ascii c in
  ((9 <=? n) && (n <=? 13) || (28 <=? n) && (n <=? 32))%nat.

(** ** Oracle number of speakers *)

(** [get_oracle_num_spkrs(rec_id, spkr_info)] *)
Definition get_oracle_num_spkrs (rec_id : string) (spkr_info : list string) : Z :=
  foldl (fun num_spkrs line =>
           if str_contains rec_id line then (num_spkrs + 1)%Z else num_spkrs)
        0%Z spkr_info.

(** ** The csv of one recording *)

(** [row[0]] *)
Definition row_id (row : list string) : result string :=
  match row with
  | [] => Raise IndexError
  | id :: _ => OK id
  end.

(** [for row in full_diary_csv: if row[0].startswith(rec_id): entry.append(row)] *)
Fixpoint select_rows (rec_id : string) (rows : list (list string))
    (entry : list (list string)) : result (list (list string)) :=
  match rows with
  | [] => OK entry
  | row :: rows' =>
      let! id := row_id row in
      if startswith id rec_id then select_rows rec_id rows' (entry ++ [row])
      else select_rows rec_id rows' entry
  end.

Section CSV.
(** [csv_writer.writerow(l)]: the text written for one row. *)
Variable csv_writerow : list string -> string.

(** [for l in out_csv: csv_writer.writerow(l)] on a file opened for
    writing. *)
Definition write_csv (out_csv : list (list string)) : string :=
  foldl (fun f l => f +:+ csv_writerow l) "" out_csv.

(** [prepare_subset_csv(full_diary_csv, rec_id, out_csv_file)] *)
Definition prepare_subset_csv (full_diary_csv : list (list string))
    (rec_id : string) (out_csv_file : string) (fs : gmap string string)
  : result (gmap string string) :=
  match full_diary_csv with
  | [] => Raise IndexError
  | head :: _ =>
      let out_csv_head := [head] in
      let! entry := select_rows rec_id full_diary_csv [] in
      let out_csv := out_csv_head ++ entry in
      OK (<[out_csv_file := write_csv out_csv]> fs)
  end.
End CSV.

(** ** The recording ids of [diarizer] *)

Section RecIds.
(** [c.isspace()] *)
Variable py_isspace : ascii -> bool.

(** [s.rstrip()] *)
Fixpoint rstrip (s : string) : string :=
  match s with
  | EmptyString => EmptyString
  | String c s' =>
      match rstrip s' with
      | EmptyString => if py_isspace c then EmptyString else String c EmptyString
      | r => String c r
      end
  end.

(** [row[0].rstrip().split("_")[0]] *)
Definition row_rec_id (row : list string) : result string :=
  let! id := row_id row in
  OK (split_first "_" (rstrip id)).

(** [A = [row[0].rstrip().split("_")[0] for row in full_csv]] *)
Fixpoint rec_id_column (full_csv : list (list string)) : result (list string) :=
  match full_csv with
  | [] => OK []
  | row :: rows =>
      let! a := row_rec_id row in
      let! A := rec_id_column rows in
      OK (a :: A)
  end.

(** Insertion into a list sorted by [String.compare], without duplicates. *)
Fixpoint insert_unique (x : string) (l : list string) : list string :=
  match l with
  | [] => [x]
  | y :: l' =>
      match String.compare x y with
      | Lt => x :: y :: l'
      | Eq => y :: l'
      | Gt => y :: insert_unique x l'
      end
  end.

(** [l = list(set(l)); l.sort()] *)
Definition sorted_set (l : list string) : list string :=
  foldr insert_unique [] l.

(** [all_rec_ids] of [diarizer]: [list(set(A[1:]))], sorted. *)
Definition all_rec_ids (full_csv : list (list string)) : result (list string) :=
  let! A := rec_id_column full_csv in
  OK (sorted_set (tail A)).
End RecIds.

(** ** From cluster labels to segments *)

(** Exceptions other than those of the passes. *)
Inductive exn : Type :=
  | PyError (e : py_error)
  | ValueError
  | ZeroDivisionError
  | OverflowError.

Inductive outcome (A : Type) : Type :=
  | Return (a : A)
  | Throw (e : exn).
Arguments Return {A} a.
Arguments Throw {A} e.

Definition obind {A B : Type} (r : outcome A) (k : A -> outcome B) : outcome B :=
  match r with
  | Return a => k a
  | Throw e => Throw e
  end.

Notation "'let?' x ':=' r 'in' k" := (obind r (fun x => k))
  (at level 10, x name, r at level 100, k at level 200).

Definition lift {A : Type} (r : result A) : outcome A :=
  match r with
  | OK a => Return a
  | Raise e => Throw (PyError e)
  end.

(** [l[i]] *)
Definition list_index {A : Type} (l : list A) (i : nat) : outcome A :=
  match l !! i with
  | Some x => Return x
  | None => Throw (PyError IndexError)
  end.

Section DoSC.
(** [float(s)] on a string; [None] when it raises ValueError. *)
Variable py_float : string -> option Q.
Variable round4 : Q -> Q.
Variable str_float : Q -> string.

Definition parse_float (s : string) : outcome Q :=
  match py_float s with
  | Some x => Return x
  | None => Throw ValueError
  end.

(** [for i in range(labels.shape[0])] of [do_sc]; the state is the local
    [rec_id], which the body reassigns, and [lol]. *)
Fixpoint sc_loop (rec_id : string) (labels : list Z) (i : nat)
    (subseg_ids : list string) (lol : list subseg)
  : outcome (string * list subseg) :=
  match labels with
  | [] => Return (rec_id, lol)
  | label :: labels' =>
      let spkr_id := rec_id +:+ "_" +:+ str label in
      let? sub_seg := list_index subseg_ids i in
      let splitted := rsplit2 sub_seg in
      let? rec_id := list_index splitted 0 in
      let? s1 := list_index splitted 1 in
      let? sseg_start := parse_float s1 in
      let? s2 := list_index splitted 2 in
      let? sseg_end := parse_float s2 in
      let a := mk_sseg rec_id sseg_start sseg_end spkr_id in
      sc_loop rec_id labels' (S i) subseg_ids (lol ++ [a])
  end.

(** [segs] are the segments the loop of [do_sc] builds from [labels] and
    [ids], [prev] being the value of the local [rec_id] on entry. *)
Fixpoint parsed_from (prev : string) (labels : list Z) (ids : list string)
    (segs : list subseg) : Prop :=
  match labels, segs with
  | [], [] => True
  | label :: labels', seg :: segs' =>
      match ids with
      | sub :: ids' =>
          (exists s e, rsplit2 sub = [rec_id seg; s; e]
                       /\ py_float s = Some (sseg_start seg)
                       /\ py_float e = Some (sseg_end seg))
          /\ spkr_id seg = prev +:+ "_" +:+ str label
          /\ parsed_from (rec_id seg) labels' ids' segs'
      | [] => False
      end
  | _, _ => False
  end.

(** [do_sc] from the cluster labels on: the labels of the clustering, the
    sub-segment ids ([segset]), the output path and the recording id. *)
Definition do_sc (labels : list Z) (subseg_ids : list string)
    (out_rttm_file : string) (rec_id : string) (fs : gmap string string)
  : outcome (gmap string string) :=
  let? st := sc_loop rec_id labels 0 subseg_ids [] in
  let lol := sort_by_start (snd st) in
  let? lol := lift (merge_ssegs_same_speaker lol) in
  let? lol := lift (distribute_overlap lol) in
  lift (write_rttm round4 str_float lol out_rttm_file fs).
End DoSC.

(** [float(s)] on the strings of decimal digits, the form of the times in
    a sub-segment id; used to evaluate examples, any other string being
    reported as a ValueError. *)
Fixpoint parse_digits (s : string) (acc : Z) : option Z :=
  match s with
  | EmptyString => Some acc
  | String c s' =>
      let n := nat_of_ascii c in
      if ((48 <=? n) && (n <=? 57))%nat
      then parse_digits s' (acc * 10 + Z.of_nat (n - 48))%Z
      else None
  end.

Definition digits_float (s : string) : option Q :=
  match s with
  | EmptyString => None
  | _ => inject_Z <$> parse_digits s 0
  end.

(** ** Chunks of an audio file (ami_prepare.py) *)

Section Chunks.
(** [int(audio_duration * 100 / seg_dur)] for a non-zero integer [seg_dur]:
    the product and the quotient are rounded to doubles, and [int] raises
    OverflowError on an infinite quotient. *)
Variable float_num_chunks : Q -> Z -> outcome Z.

End Chunks.


(** * Specification predicates *)

(** [adjacent R l]: every element of [l] is related by [R] to its
    successor. *)
Fixpoint adjacent (R : subseg -> subseg -> Prop) (l : list subseg) : Prop :=
  match l with
  | x :: (y :: _) as l' => R x y /\ adjacent R l'
  | _ => True
  end.



(** [end > start] *)
Definition positive (s : subseg) : Prop := sseg_start s < sseg_end s.


(** Start times never decrease along the list. *)
Definition sorted_by_start (lol : list subseg) : Prop :=
  adjacent (fun x y => sseg_start x <= sseg_start y) lol.


(** The test of the merge loop fails on the pair: [y] does not touch [x],
    or has another speaker. *)
Definition not_mergeable (x y : subseg) : Prop :=
  is_overlapped (sseg_end x) (sseg_start y)
  && String.eqb (spkr_id x) (spkr_id y) = false.

(** Invariant of the traceback: the keys are the names of the clusters
    alive, no cluster is empty, and the clusters hold the members [M],
    each once. *)
Definition clusters_inv (alive : gset Z) (clusters : gmap string (list Z))
    (M : list Z) : Prop :=
  (forall z, z ∈ alive <-> is_Some (clusters !! str z))
  /\ map_Forall (fun _ l => l <> []) clusters
  /\ cluster_members clusters ≡ₚ M.

(** Every cluster alive has an id below the next id to be given out. *)
Definition below (next_id : Z) (alive : gset Z) : Prop :=
  forall z, z ∈ alive -> (z < next_id)%Z.

(** Two rows that agree on every column but the distance. *)
Definition same_but_distance (r1 r2 : merge_record) : Prop :=
  col0 r1 = col0 r2 /\ col1 r1 = col1 r2 /\ col3 r1 = col3 r2.

(** The concatenation of a list of lines. *)
Definition concat_lines (lines : list string) : string :=
  foldr String.append "" lines.

(** [y] starts strictly after [x] ends. *)
Definition gap (x y : subseg) : Prop := sseg_end x < sseg_start y.

(** [y] has the speaker of [x] and starts no later than [x] ends: the test
    of the merge loop succeeds on the pair. *)
Definition mergeable (x y : subseg) : Prop :=
  sseg_start y <= sseg_end x /\ spkr_id x = spkr_id y.

(** The fields of a sub-segment that the merge pass never writes. *)
Definition seg_key (s : subseg) : string * Q * string :=
  (rec_id s, sseg_start s, spkr_id s).


(** Two segments with the same recording id, start time and speaker. *)
Definition same_head (x y : subseg) : Prop :=
  rec_id y = rec_id x /\ sseg_start y = sseg_start x /\ spkr_id y = spkr_id x.

(** Two segments with the same recording id, end time and speaker. *)
Definition same_tail (x y : subseg) : Prop :=
  rec_id y = rec_id x /\ sseg_end y = sseg_end x /\ spkr_id y = spkr_id x.

(** The test of the selection loop, on a row that has a first field. *)
Definition selected (rec_id : string) (row : list string) : bool :=
  startswith (default "" (head row)) rec_id.

(** Strict order of Python strings. *)
Definition str_lt (a b : string) : Prop := String.compare a b = Lt.

(** The boundary between [cur] and [next] in the list [out]: [cur_new]
    stands at some index of [out] and ends at the midpoint; [next_new]
    starts at the midpoint and is the successor of [cur_new] in [out], or
    is [cur_new] itself when the guard found the two equal (then of zero
    length) and kept one. *)
Definition boundary_closed (cur next : subseg) (out : list subseg) : Prop :=
  exists (j : nat) (cur_new next_new : subseg),
    out !! j = Some cur_new
    /\ (out !! (S j) = Some next_new
        \/ (next_new = cur_new /\ sseg_start cur_new == sseg_end cur_new))
    /\ rec_id cur_new = rec_id cur /\ spkr_id cur_new = spkr_id cur
    /\ rec_id next_new = rec_id next /\ spkr_id next_new = spkr_id next
    /\ sseg_end cur_new == sseg_end cur - (sseg_end cur - sseg_start next) / 2
    /\ sseg_start next_new
       == sseg_start next + (sseg_end cur - sseg_start next) / 2
    /\ sseg_end cur_new == sseg_start next_new.

(** * Properties *)

(** ** Python equality on sub-segments *)

Lemma sseg_eqb_true (s t : subseg) :
  sseg_eqb s t = true ->
  rec_id s = rec_id t /\ sseg_start s == sseg_start t
  /\ sseg_end s == sseg_end t /\ spkr_id s = spkr_id t.
Proof.
  unfold sseg_eqb. rewrite !andb_true_iff.
  intros [[[Hr Hs] He] Hk].
  apply String.eqb_eq in Hr, Hk. apply Qeq_bool_iff in Hs, He. auto.
Qed.

Lemma is_overlapped_true (end1 start2 : Q) :
  is_overlapped end1 start2 = true <-> start2 <= end1.
Proof.
  unfold is_overlapped. destruct (Qlt_le_dec end1 start2); split; intros; try done; lra.
Qed.

Lemma is_overlapped_false (end1 start2 : Q) :
  is_overlapped end1 start2 = false <-> end1 < start2.
Proof.
  unfold is_overlapped. destruct (Qlt_le_dec end1 start2); split; intros; try done; lra.
Qed.

(** ** Relations between neighbours of a list *)

Lemma adjacent_cons R x l :
  adjacent R (x :: l) <-> (forall y, head l = Some y -> R x y) /\ adjacent R l.
Proof.
  destruct l as [|y l]; simpl.
  - split; [intros _; split; [intros ? [=]|done] | done].
  - split.
    + intros [H1 H2]. split; [intros ? [= <-]; done | done].
    + intros [H1 H2]. split; [apply H1; done | done].
Qed.

Lemma adjacent_snoc R l x :
  adjacent R (l ++ [x]) <-> adjacent R l /\ (forall p, last l = Some p -> R p x).
Proof.
  induction l as [|a l IH].
  - simpl. split; [intros _; split; [done | intros ? [=]] | done].
  - destruct l as [|b l].
    + simpl. split.
      * intros [H _]. split; [done | intros ? [= <-]; done].
      * intros [_ H]. split; [apply H; done | done].
    + change ((a :: b :: l) ++ [x]) with (a :: (b :: l) ++ [x]).
      change (adjacent R (a :: (b :: l) ++ [x]))
        with (R a b /\ adjacent R ((b :: l) ++ [x])).
      change (adjacent R (a :: b :: l)) with (R a b /\ adjacent R (b :: l)).
      change (last (a :: b :: l)) with (last (b :: l)).
      rewrite IH. tauto.
Qed.

Lemma adjacent_app R l1 x l2 :
  adjacent R (l1 ++ x :: l2) <-> adjacent R (l1 ++ [x]) /\ adjacent R (x :: l2).
Proof.
  induction l1 as [|a l1 IH].
  - simpl. tauto.
  - destruct l1 as [|b l1].
    + simpl. destruct l2; simpl; tauto.
    + change ((a :: b :: l1) ++ x :: l2) with (a :: b :: (l1 ++ x :: l2)).
      change ((a :: b :: l1) ++ [x]) with (a :: b :: (l1 ++ [x])).
      change (adjacent R (a :: b :: l1 ++ x :: l2))
        with (R a b /\ adjacent R ((b :: l1) ++ x :: l2)).
      change (adjacent R (a :: b :: l1 ++ [x]))
        with (R a b /\ adjacent R ((b :: l1) ++ [x])).
      rewrite IH. tauto.
Qed.

Lemma adjacent_lookup R l :
  adjacent R l <->
  forall i a b, l !! i = Some a -> l !! (S i) = Some b -> R a b.
Proof.
  induction l as [|x l IH].
  - simpl. split; [intros _ i a b [=] | done].
  - rewrite adjacent_cons, IH. split.
    + intros [Hx Hl] [|i] a b Ha Hb; simpl in *.
      * injection Ha as <-. apply Hx. destruct l; simpl in *; congruence.
      * eauto.
    + intros H. split.
      * intros y Hy. apply (H 0%nat x y); [done|]. destruct l; simpl in *; congruence.
      * intros i a b Ha Hb. apply (H (S i) a b); done.
Qed.

(** ** The overlap-redistribution pass *)

Lemma distribute_step_next st next_sseg :
  ds_next_sseg (distribute_step st next_sseg)
  = Some (ds_sseg (distribute_step st next_sseg)).
Proof. unfold distribute_step. destruct (is_overlapped _ _); reflexivity. Qed.

Lemma distribute_loop_next rest : forall st,
  ds_next_sseg st = Some (ds_sseg st) ->
  ds_next_sseg (distribute_loop st rest) = Some (ds_sseg (distribute_loop st rest)).
Proof.
  induction rest as [|x rest IH]; intros st Hst; simpl; [done|].
  apply IH, distribute_step_next.
Qed.

Lemma distribute_loop_cons_next st x rest :
  ds_next_sseg (distribute_loop st (x :: rest))
  = Some (ds_sseg (distribute_loop st (x :: rest))).
Proof. simpl. apply distribute_loop_next, distribute_step_next. Qed.

(** What [distribute_overlap] returns on a list of at least two elements. *)
Lemma distribute_overlap_cons2 sseg x rest :
  distribute_overlap (sseg :: x :: rest)
  = let st := distribute_loop (mk_dist_state [] sseg None) (x :: rest) in
    OK (ds_new_lol st ++ [ds_sseg st]).
Proof.
  unfold distribute_overlap. rewrite distribute_loop_cons_next. reflexivity.
Qed.

(** C9. [distribute_overlap] returns a list exactly when its input has at
    least two elements; on the empty list the initial [lol[0]] raises
    IndexError, and on a one-element list the final
    [new_lol.append(next_sseg)] raises UnboundLocalError, the loop variable
    never having been assigned. *)
Theorem distribute_overlap_returns_iff :
  (forall lol : list subseg,
     (exists out, distribute_overlap lol = OK out) <-> (2 <= length lol)%nat)
  /\ distribute_overlap [] = Raise IndexError
  /\ (forall s : subseg, distribute_overlap [s] = Raise UnboundLocalError).
Proof.
  split; [|split; [reflexivity | intros s; reflexivity]].
  intros [|s [|x rest]].
  - split; [intros [out [=]] | simpl; lia].
  - split; [intros [out [=]] | simpl; lia].
  - split; [simpl; lia | intros _].
    rewrite distribute_overlap_cons2. eauto.
Qed.


Lemma sseg_eqb_start s t : sseg_eqb s t = true -> sseg_start s == sseg_start t.
Proof. intros H. apply sseg_eqb_true in H. tauto. Qed.

(** *** Ordering of the output *)




(** *** Positive length of the output *)





(** ** The merge pass followed by the overlap pass *)






(** ** What the merge pass keeps and what it drops *)

Lemma merge_loop_not_mergeable rest : forall sseg new_lol,
  adjacent not_mergeable (new_lol ++ [sseg]) ->
  let r := merge_loop sseg new_lol rest in
  adjacent not_mergeable (fst r ++ [snd r]).
Proof.
  induction rest as [|next_sseg rest IH]; intros sseg new_lol Hadj; simpl; [done|].
  destruct (is_overlapped (sseg_end sseg) (sseg_start next_sseg)
            && String.eqb (spkr_id sseg) (spkr_id next_sseg)) eqn:Hc.
  - apply IH. apply adjacent_snoc in Hadj as [Hadj Hlast].
    apply adjacent_snoc. split; [done|]. intros p Hp. apply (Hlast p Hp).
  - apply IH. apply adjacent_snoc. split; [done|].
    intros p Hp. rewrite last_snoc in Hp. injection Hp as <-. exact Hc.
Qed.

(** No two neighbours of the merge pass's output share a speaker while
    overlapping or touching. *)
Lemma merge_output_not_mergeable lol out :
  merge_ssegs_same_speaker lol = OK out -> adjacent not_mergeable out.
Proof.
  destruct lol as [|sseg rest]; [done|]. simpl. intros [= <-].
  assert (H := merge_loop_not_mergeable rest sseg [] I).
  apply adjacent_snoc in H as [H _]. exact H.
Qed.

Lemma last_cons_default (l : list subseg) : forall a d,
  List.last (a :: l) d = List.last l a.
Proof.
  induction l as [|b l IH]; intros a d; [reflexivity|].
  change (List.last (a :: b :: l) d) with (List.last (b :: l) d).
  rewrite !IH. reflexivity.
Qed.

(** On a list without mergeable neighbours the loop pushes every element
    but the last, which stays in the accumulator. *)
Lemma merge_loop_no_merge rest : forall sseg new_lol,
  adjacent not_mergeable (sseg :: rest) ->
  merge_loop sseg new_lol rest
  = (new_lol ++ removelast (sseg :: rest), List.last rest sseg).
Proof.
  induction rest as [|next_sseg rest IH]; intros sseg new_lol Hadj.
  - simpl. rewrite app_nil_r. reflexivity.
  - apply adjacent_cons in Hadj as [Hc Hadj]. specialize (Hc _ eq_refl).
    unfold not_mergeable in Hc.
    cbn [merge_loop]. rewrite Hc. rewrite (IH _ _ Hadj).
    rewrite <- app_assoc. f_equal. symmetry. apply last_cons_default.
Qed.

(** Running the merge pass on its own output drops the last element of that
    output, and raises when the output is empty. *)
Lemma merge_twice lol out :
  merge_ssegs_same_speaker lol = OK out ->
  merge_ssegs_same_speaker out
  = match out with [] => Raise IndexError | _ => OK (removelast out) end.
Proof.
  intros H. apply merge_output_not_mergeable in H.
  destruct out as [|s rest]; [done|].
  unfold merge_ssegs_same_speaker. rewrite (merge_loop_no_merge _ _ _ H).
  reflexivity.
Qed.

(** The end time of the last input sub-segment never reaches the output of
    the merge pass. *)
Lemma merge_loop_ignores_last_end rest x e : forall sseg new_lol,
  fst (merge_loop sseg new_lol (rest ++ [set_end x e]))
  = fst (merge_loop sseg new_lol (rest ++ [x])).
Proof.
  induction rest as [|next_sseg rest IH]; intros sseg new_lol; simpl.
  - destruct (is_overlapped _ _ && _); reflexivity.
  - destruct (is_overlapped _ _ && _); apply IH.
Qed.

Lemma merge_ignores_last_end lol x e :
  merge_ssegs_same_speaker (lol ++ [set_end x e])
  = merge_ssegs_same_speaker (lol ++ [x]).
Proof.
  destruct lol as [|sseg rest]; [reflexivity|]. simpl.
  f_equal. apply merge_loop_ignores_last_end.
Qed.

(** C1. On the five sub-segment scenario the merge pass returns
    [A:(0,3), B:(3,5), A:(4,6)] and the two passes return
    [A:(0,3), B:(3,4.5), A:(4.5,6)]: the last sub-segment [B:(5,7)] is
    lost, so neither list is the one expected of the scenario. *)
Theorem scenario_loses_last_segment :
  result_lol_eqb (merge_ssegs_same_speaker scenario)
    (OK [ mk_sseg "R1" 0 3 "A"; mk_sseg "R1" 3 5 "B"; mk_sseg "R1" 4 6 "A" ]) = true
  /\ result_lol_eqb (merge_then_distribute scenario)
       (OK [ mk_sseg "R1" 0 3 "A"; mk_sseg "R1" 3 4.5 "B";
             mk_sseg "R1" 4.5 6 "A" ]) = true
  /\ do_sc_boundaries scenario = merge_then_distribute scenario
  /\ result_lol_eqb (merge_ssegs_same_speaker scenario)
       (OK [ mk_sseg "R1" 0 3 "A"; mk_sseg "R1" 3 5 "B"; mk_sseg "R1" 4 6 "A";
             mk_sseg "R1" 5 7 "B" ]) = false
  /\ result_lol_eqb (merge_then_distribute scenario)
       (OK [ mk_sseg "R1" 0 3 "A"; mk_sseg "R1" 3 4.5 "B";
             mk_sseg "R1" 4.5 5.5 "A"; mk_sseg "R1" 5.5 7 "B" ]) = false.
Proof. repeat split; vm_compute; reflexivity. Qed.

(** C3. The merge pass is not idempotent: on
    [A:(0,1), A:(1,2), B:(2,3), A:(4,5)] it returns [A:(0,2), B:(2,3)], and
    on that list it returns [A:(0,2)]. *)
Theorem merge_not_idempotent :
  let lol := [ mk_sseg "R1" 0 1 "A"; mk_sseg "R1" 1 2 "A"; mk_sseg "R1" 2 3 "B";
               mk_sseg "R1" 4 5 "A" ] in
  let out := [ mk_sseg "R1" 0 2 "A"; mk_sseg "R1" 2 3 "B" ] in
  merge_ssegs_same_speaker lol = OK out
  /\ merge_ssegs_same_speaker out = OK [ mk_sseg "R1" 0 2 "A" ]
  /\ result_lol_eqb (merge_ssegs_same_speaker out) (OK out) = false.
Proof. repeat split; vm_compute; reflexivity. Qed.

(** C4. On [A:(0,2), B:(1,3), C:(2,4)] the merge pass ends with [C:(2,4)]
    in its accumulator and returns [A:(0,2), B:(1,3)]; the final append of
    the overlap pass emits [B], the last element of that list, and no
    segment of speaker C is in the output of the two passes. *)
Theorem last_segment_not_flushed :
  let a := mk_sseg "R1" 0 2 "A" in
  let b := mk_sseg "R1" 1 3 "B" in
  let c := mk_sseg "R1" 2 4 "C" in
  merge_loop a [] [b; c] = ([a; b], c)
  /\ merge_ssegs_same_speaker [a; b; c] = OK [a; b]
  /\ result_lol_eqb (merge_then_distribute [a; b; c])
       (OK [ mk_sseg "R1" 0 1.5 "A"; mk_sseg "R1" 1.5 3 "B" ]) = true
  /\ (exists out, merge_then_distribute [a; b; c] = OK out
      /\ forallb (fun s => negb (String.eqb (spkr_id s) "C")) out = true).
Proof.
  repeat split; try (vm_compute; reflexivity).
  eexists. split; reflexivity.
Qed.

(** ** The agglomerative traceback *)

Lemma str_inj (x y : Z) : str x = str y -> x = y.
Proof. unfold str. apply (inj pretty). Qed.

Lemma cluster_members_insert (clusters : gmap string (list Z)) k l :
  clusters !! k = None ->
  cluster_members (<[k := l]> clusters) ≡ₚ l ++ cluster_members clusters.
Proof.
  intros H. unfold cluster_members.
  rewrite (map_to_list_insert clusters k l H). reflexivity.
Qed.

Lemma cluster_members_delete (clusters : gmap string (list Z)) k l :
  clusters !! k = Some l ->
  l ++ cluster_members (delete k clusters) ≡ₚ cluster_members clusters.
Proof.
  intros H. unfold cluster_members.
  rewrite <- (map_to_list_delete clusters k l H). reflexivity.
Qed.

Lemma init_loop_inv (l : list Z) : forall alive clusters M,
  NoDup l -> (forall z, z ∈ l -> z ∉ alive) ->
  clusters_inv alive clusters M ->
  let clusters' := foldl (fun clusters i => <[str i := [i]]> clusters) clusters l in
  clusters_inv (alive ∪ list_to_set l) clusters' (M ++ l)
  /\ size clusters' = (size clusters + length l)%nat.
Proof.
  induction l as [|i l IH]; intros alive clusters M Hnd Hfresh Hinv; simpl.
  - rewrite app_nil_r, Nat.add_0_r. split; [|done].
    destruct Hinv as (Hk & Hne & Hm). split; [|done].
    intros z. rewrite <- Hk. set_solver.
  - apply NoDup_cons in Hnd as [Hi Hnd].
    destruct Hinv as (Hk & Hne & Hm).
    assert (Hnone : clusters !! str i = None).
    { apply eq_None_not_Some. rewrite <- Hk. apply Hfresh. left. }
    destruct (IH (alive ∪ {[i]}) (<[str i := [i]]> clusters) (M ++ [i]) Hnd) as [IH1 IH2].
    + intros z Hz. specialize (Hfresh z (list_elem_of_further _ _ _ Hz)).
      assert (z <> i) by (intros ->; done). set_solver.
    + split; [|split].
      * intros z. rewrite lookup_insert. case_decide as Hd.
        -- apply str_inj in Hd. subst z. split; [eauto | set_solver].
        -- rewrite <- Hk. assert (i <> z) by (intros ->; done). set_solver.
      * apply map_Forall_insert_2; done.
      * rewrite cluster_members_insert by done. rewrite Hm.
        rewrite (Permutation_app_comm M [i]). reflexivity.
    + split.
      * rewrite <- app_assoc in IH1. simpl in IH1.
        destruct IH1 as (Hk' & Hne' & Hm'). split; [|done].
        intros z. rewrite <- Hk'. set_solver.
      * rewrite IH2. rewrite map_size_insert_None by done. lia.
Qed.

Lemma init_clusters_inv (N : Z) :
  clusters_inv (list_to_set (seqZ 0 N)) (init_clusters N) (seqZ 0 N)
  /\ size (init_clusters N) = Z.to_nat N.
Proof.
  destruct (init_loop_inv (seqZ 0 N) ∅ ∅ []) as [H1 H2].
  - apply NoDup_seqZ.
  - set_solver.
  - split; [|split].
    + intros z. rewrite lookup_empty. split; [set_solver | intros [? [=]]].
    + apply map_Forall_empty.
    + unfold cluster_members. rewrite map_to_list_empty. reflexivity.
  - unfold init_clusters. simpl in H1. split.
    + destruct H1 as (Hk & Hne & Hm). split; [|done].
      intros z. rewrite <- Hk. set_solver.
    + rewrite H2, map_size_empty, length_seqZ. lia.
Qed.

Lemma alive_after_merge (alive : gset Z) (n a b z : Z) :
  z ∈ ({[n]} ∪ (alive ∖ {[a; b]}) : gset Z)
  <-> z = n \/ (z ∈ alive /\ z <> a /\ z <> b).
Proof. set_solver. Qed.

(** One merge on a dictionary that satisfies the invariant: it succeeds,
    keeps the invariant for the updated set of clusters, and leaves one
    cluster fewer. *)
Lemma merge_step_spec N i row clusters alive M :
  let a := py_int (col0 row) in
  let b := py_int (col1 row) in
  clusters_inv alive clusters M ->
  a ∈ alive -> b ∈ alive -> a <> b -> (N + i)%Z ∉ alive ->
  exists clusters',
    merge_step N i row clusters = OK clusters'
    /\ clusters_inv ({[(N + i)%Z]} ∪ (alive ∖ {[a; b]})) clusters' M
    /\ S (size clusters') = size clusters.
Proof.
  intros a b (Hk & Hne & Hm) Ha Hb Hab Hnew.
  destruct (proj1 (Hk a) Ha) as [la Hla].
  destruct (proj1 (Hk b) Hb) as [lb Hlb].
  assert (Hnone : clusters !! str (N + i) = None).
  { apply eq_None_not_Some. rewrite <- Hk. done. }
  assert (Hna : str (N + i) <> str a).
  { intros E. apply str_inj in E. congruence. }
  assert (Hnb : str (N + i) <> str b).
  { intros E. apply str_inj in E. congruence. }
  assert (Hsab : str a <> str b).
  { intros E. apply str_inj in E. done. }
  set (c1 := <[str (N + i) := la ++ lb]> clusters).
  assert (H1a : c1 !! str a = Some la).
  { unfold c1. rewrite lookup_insert_ne; done. }
  assert (H2b : delete (str a) c1 !! str b = Some lb).
  { unfold c1. rewrite lookup_delete_ne, lookup_insert_ne; done. }
  exists (delete (str b) (delete (str a) c1)). split; [|split; [split; [|split]|]].
  - unfold merge_step, dict_get, dict_pop. fold a b.
    rewrite Hla, Hlb. simpl. fold c1. rewrite H1a. simpl. rewrite H2b. done.
  - intros z. rewrite alive_after_merge.
    destruct (decide (z = b)) as [->|Hzb].
    { rewrite lookup_delete_eq. split; [|intros [? [=]]].
      intros [->|(_ & _ & Hz)]; done. }
    rewrite lookup_delete_ne by (intros E; apply str_inj in E; done).
    destruct (decide (z = a)) as [->|Hza].
    { rewrite lookup_delete_eq. split; [|intros [? [=]]].
      intros [->|(_ & Hz & _)]; done. }
    rewrite lookup_delete_ne by (intros E; apply str_inj in E; done).
    unfold c1. destruct (decide (z = (N + i)%Z)) as [->|Hzn].
    { rewrite lookup_insert_eq. split; [eauto | intros _; left; done]. }
    rewrite lookup_insert_ne by (intros E; apply str_inj in E; done).
    rewrite <- Hk. tauto.
  - apply map_Forall_delete, map_Forall_delete, map_Forall_insert_2; [|done].
    intros E. apply app_eq_nil in E as [E _]. subst la.
    apply (Hne _ _ Hla). reflexivity.
  - apply (Permutation_app_inv_l (la ++ lb)).
    rewrite <- Hm.
    rewrite <- (cluster_members_insert clusters (str (N + i)) (la ++ lb) Hnone).
    fold c1. rewrite <- (cluster_members_delete c1 _ _ H1a).
    rewrite <- (cluster_members_delete _ _ _ H2b).
    rewrite app_assoc. reflexivity.
  - rewrite map_size_delete_Some by eauto.
    rewrite map_size_delete_Some by eauto.
    unfold c1. rewrite map_size_insert_None by done. simpl.
    assert (size clusters <> 0)%nat; [|lia].
    apply map_size_non_empty_iff. intros ->. rewrite lookup_empty in Hla. done.
Qed.

(** The rows consumed by the loop stay valid for the updated set of
    clusters, every id of which is below the next cluster id. *)
Lemma valid_merges_cons alive next_id row rows :
  valid_merges alive next_id (row :: rows) = true ->
  py_int (col0 row) ∈ alive /\ py_int (col1 row) ∈ alive
  /\ py_int (col0 row) <> py_int (col1 row)
  /\ valid_merges ({[next_id]} ∪ (alive ∖ {[py_int (col0 row); py_int (col1 row)]}))
       (next_id + 1) rows = true.
Proof.
  simpl. rewrite !andb_true_iff, !bool_decide_eq_true. tauto.
Qed.

Lemma below_step next_id alive a b :
  below next_id alive ->
  below (next_id + 1) ({[next_id]} ∪ (alive ∖ {[a; b]})).
Proof.
  intros H z Hz. apply elem_of_union in Hz as [Hz|Hz].
  - apply elem_of_singleton in Hz. lia.
  - apply elem_of_difference in Hz as [Hz _]. specialize (H z Hz). lia.
Qed.

Lemma below_fresh next_id alive : below next_id alive -> next_id ∉ alive.
Proof. intros H Hin. specialize (H _ Hin). lia. Qed.

(** With a falsy speaker count the loop applies every row. *)
Lemma trace_loop_falsy N oracle M rows : forall i alive clusters,
  truthy oracle = false ->
  valid_merges alive (N + i) rows = true ->
  below (N + i) alive ->
  clusters_inv alive clusters M ->
  exists out alive',
    trace_loop N oracle i rows clusters = OK out
    /\ clusters_inv alive' out M
    /\ (size out + length rows = size clusters)%nat
    /\ (rows <> [] -> (N + i + Z.of_nat (length rows) - 1)%Z ∈ alive').
Proof.
  induction rows as [|row rows IH]; intros i alive clusters Hf Hv Hb Hinv.
  - exists clusters, alive. simpl.
    split; [done|]. split; [done|]. split; [lia | done].
  - apply valid_merges_cons in Hv as (Ha & Hb' & Hab & Hv).
    destruct (merge_step_spec N i row clusters alive M Hinv Ha Hb' Hab
                (below_fresh _ _ Hb)) as (c' & Hstep & Hinv' & Hsz).
    cbn [trace_loop]. rewrite Hstep. simpl. rewrite Hf. simpl.
    replace (N + i + 1)%Z with (N + (i + 1))%Z in Hv by lia.
    destruct (IH (i + 1)%Z _ c' Hf Hv) as (out & alive' & Hrun & Hout & Hsize & Hlast).
    + replace (N + (i + 1))%Z with (N + i + 1)%Z by lia. apply below_step, Hb.
    + done.
    + exists out.
      destruct rows as [|row' rows'].
      * simpl in Hrun. injection Hrun as <-.
        exists ({[(N + i)%Z]} ∪ (alive ∖ {[py_int (col0 row); py_int (col1 row)]})).
        split; [done|]. split; [done|]. split; [simpl; lia|].
        intros _. simpl length.
        replace (N + i + Z.of_nat 1 - 1)%Z with (N + i)%Z by lia.
        apply alive_after_merge. left. done.
      * exists alive'. split; [done|]. split; [done|].
        split; [simpl in *; lia|].
        intros _. specialize (Hlast ltac:(done)).
        match goal with
        | |- ?x ∈ _ =>
            replace x with (N + (i + 1) + Z.of_nat (length (row' :: rows')) - 1)%Z
        end; [done|]. simpl length. lia.
Qed.

(** With a truthy count [k] below the current number of clusters, and
    enough rows left, the loop stops at exactly [k] clusters. *)
Lemma trace_loop_oracle N k M rows : forall i alive clusters,
  valid_merges alive (N + i) rows = true ->
  below (N + i) alive ->
  clusters_inv alive clusters M ->
  (1 <= k < Z.of_nat (size clusters))%Z ->
  (size clusters <= Z.to_nat k + length rows)%nat ->
  exists out alive',
    trace_loop N (Some k) i rows clusters = OK out
    /\ clusters_inv alive' out M
    /\ Z.of_nat (size out) = k.
Proof.
  induction rows as [|row rows IH]; intros i alive clusters Hv Hb Hinv Hk Hlen.
  - simpl in Hlen. lia.
  - apply valid_merges_cons in Hv as (Ha & Hb' & Hab & Hv).
    destruct (merge_step_spec N i row clusters alive M Hinv Ha Hb' Hab
                (below_fresh _ _ Hb)) as (c' & Hstep & Hinv' & Hsz).
    cbn [trace_loop]. rewrite Hstep. simpl.
    assert (Ht : (k =? 0)%Z = false) by (apply Z.eqb_neq; lia).
    rewrite Ht. simpl.
    destruct (Z.of_nat (size c') <=? k)%Z eqn:Hc.
    + apply Z.leb_le in Hc. eexists _, _. split; [done|]. split; [apply Hinv'|]. lia.
    + apply Z.leb_gt in Hc.
      replace (N + i + 1)%Z with (N + (i + 1))%Z in Hv by lia.
      apply (IH (i + 1)%Z _ c' Hv); try done.
      * replace (N + (i + 1))%Z with (N + i + 1)%Z by lia. apply below_step, Hb.
      * lia.
      * simpl in Hlen. lia.
Qed.

Lemma valid_linkage_start rows :
  valid_linkage rows = true ->
  let N := (Z.of_nat (length rows) + 1)%Z in
  valid_merges (list_to_set (seqZ 0 N)) (N + 0) rows = true
  /\ below (N + 0) (list_to_set (seqZ 0 N)).
Proof.
  intros Hv N. rewrite Z.add_0_r. split; [exact Hv|].
  intros z Hz. apply elem_of_list_to_set, elem_of_seqZ in Hz. lia.
Qed.

Lemma map_size_1_lookup (m : gmap string (list Z)) k l :
  size m = 1%nat -> m !! k = Some l -> m = {[ k := l ]}.
Proof.
  intros Hs Hk. rewrite <- (insert_delete_id m k l Hk).
  assert (Hd : delete k m = ∅).
  { apply map_size_empty_inv. rewrite map_size_delete_Some by eauto. lia. }
  rewrite Hd. reflexivity.
Qed.

(** C7. With a falsy speaker count ([None] or [0]) and a linkage matrix
    over [N] observations, every row is merged: the dictionary returned
    holds one cluster, named after the last merge ([N + (N - 2)], or [0]
    when there is no row), and its list holds each of the [N] indices once. *)
Theorem trace_back_falsy_single_cluster
    (cluster_map_traverse : list merge_record) (threshold : Q)
    (oracle_num_spkrs : option Z) :
  valid_linkage cluster_map_traverse = true ->
  truthy oracle_num_spkrs = false ->
  let N := (Z.of_nat (length cluster_map_traverse) + 1)%Z in
  exists members,
    trace_back_cluster_labels cluster_map_traverse threshold oracle_num_spkrs
    = OK {[ str (2 * (N - 1)) := members ]}
    /\ members ≡ₚ seqZ 0 N.
Proof.
  intros Hv Hf N.
  destruct (valid_linkage_start _ Hv) as [Hv' Hb]. fold N in Hv', Hb.
  destruct (init_clusters_inv N) as [Hinv Hsz].
  destruct (trace_loop_falsy N oracle_num_spkrs (seqZ 0 N) cluster_map_traverse
              0 _ _ Hf Hv' Hb Hinv) as (out & alive' & Hrun & Hout & Hsize & Hlast).
  assert (Hone : size out = 1%nat) by (rewrite Hsz in Hsize; lia).
  assert (Hkey : is_Some (out !! str (2 * (N - 1)))).
  { destruct cluster_map_traverse as [|row rows].
    - simpl in Hrun. injection Hrun as <-. vm_compute. eauto.
    - destruct Hout as (Hk & _ & _). apply Hk.
      specialize (Hlast ltac:(done)).
      replace (2 * (N - 1))%Z
        with (N + 0 + Z.of_nat (length (row :: rows)) - 1)%Z by lia.
      done. }
  destruct Hkey as [members Hkey].
  exists members. unfold trace_back_cluster_labels. fold N. rewrite Hrun.
  pose proof (map_size_1_lookup out _ _ Hone Hkey) as Heq.
  split; [f_equal; done|].
  destruct Hout as (_ & _ & Hm). rewrite Heq in Hm.
  unfold cluster_members in Hm. rewrite map_to_list_singleton in Hm.
  simpl in Hm. rewrite app_nil_r in Hm. exact Hm.
Qed.

Lemma trace_back_falsy_single_cluster_witness :
  exists members,
    trace_back_cluster_labels linkage5 0.9 (Some 0%Z)
    = OK {[ str 8 := members ]}
    /\ members ≡ₚ seqZ 0 5.
Proof.
  apply (trace_back_falsy_single_cluster linkage5 0.9 (Some 0%Z)); reflexivity.
Defined.

(** X8 (the part of C2 that holds). With a count [k] such that
    [1 <= k < N] the traceback returns exactly [k] clusters, none empty,
    whose lists hold each of the [N] indices once. *)
Lemma trace_back_oracle_partition
    (cluster_map_traverse : list merge_record) (threshold : Q) (k : Z) :
  valid_linkage cluster_map_traverse = true ->
  let N := (Z.of_nat (length cluster_map_traverse) + 1)%Z in
  (1 <= k < N)%Z ->
  exists clusters,
    trace_back_cluster_labels cluster_map_traverse threshold (Some k) = OK clusters
    /\ Z.of_nat (size clusters) = k
    /\ map_Forall (fun _ l => l <> []) clusters
    /\ cluster_members clusters ≡ₚ seqZ 0 N.
Proof.
  intros Hv N Hk.
  destruct (valid_linkage_start _ Hv) as [Hv' Hb]. fold N in Hv', Hb.
  destruct (init_clusters_inv N) as [Hinv Hsz].
  destruct (trace_loop_oracle N k (seqZ 0 N) cluster_map_traverse 0 _ _ Hv' Hb Hinv)
    as (out & alive' & Hrun & Hout & Hsize).
  - rewrite Hsz. lia.
  - rewrite Hsz. lia.
  - exists out. unfold trace_back_cluster_labels. fold N.
    destruct Hout as (_ & Hne & Hm). done.
Qed.

(** With a count [k >= N] and at least one row, the first merge is applied
    before the count is looked at: [N - 1] clusters are returned. *)
Lemma trace_back_oracle_ge_N
    (cluster_map_traverse : list merge_record) (threshold : Q) (k : Z) :
  valid_linkage cluster_map_traverse = true ->
  cluster_map_traverse <> [] ->
  let N := (Z.of_nat (length cluster_map_traverse) + 1)%Z in
  (N <= k)%Z ->
  exists clusters,
    trace_back_cluster_labels cluster_map_traverse threshold (Some k) = OK clusters
    /\ Z.of_nat (size clusters) = (N - 1)%Z.
Proof.
  intros Hv Hne N Hk.
  destruct (valid_linkage_start _ Hv) as [Hv' Hb]. fold N in Hv', Hb.
  destruct (init_clusters_inv N) as [Hinv Hsz].
  unfold trace_back_cluster_labels. fold N.
  destruct cluster_map_traverse as [|row rows]; [done|].
  apply valid_merges_cons in Hv' as (Ha & Hb' & Hab & _).
  destruct (merge_step_spec N 0 row _ _ _ Hinv Ha Hb' Hab (below_fresh _ _ Hb))
    as (c' & Hstep & _ & Hsize).
  cbn [trace_loop]. rewrite Hstep. simpl.
  assert (Ht : (k =? 0)%Z = false) by (apply Z.eqb_neq; lia).
  assert (Hc : (Z.of_nat (size c') <=? k)%Z = true) by (apply Z.leb_le; lia).
  rewrite Ht, Hc. simpl. exists c'. split; [done | lia].
Qed.

(** C2. On the linkage matrix of two observations with count [K = N = 2]
    the traceback merges them and returns one cluster, not two. *)
Theorem trace_back_count_equal_N :
  let cluster_map_traverse := [ mk_merge_record 0 1 0.5 2 ] in
  valid_linkage cluster_map_traverse = true
  /\ trace_back_cluster_labels cluster_map_traverse 0.9 (Some 2%Z)
     = OK {[ "2" := [0%Z; 1%Z] ]}
  /\ size ({[ "2" := [0%Z; 1%Z] ]} : gmap string (list Z)) = 1%nat.
Proof. repeat split; vm_compute; reflexivity. Qed.

(** ** Arguments the traceback does not read *)

Lemma merge_step_same_but_distance N i r1 r2 clusters :
  same_but_distance r1 r2 ->
  merge_step N i r1 clusters = merge_step N i r2 clusters.
Proof. intros (H0 & H1 & _). unfold merge_step. rewrite H0, H1. reflexivity. Qed.

Lemma trace_loop_same_but_distance N oracle rows1 rows2 :
  Forall2 same_but_distance rows1 rows2 ->
  forall i clusters,
    trace_loop N oracle i rows1 clusters = trace_loop N oracle i rows2 clusters.
Proof.
  induction 1 as [|r1 r2 rows1 rows2 Hr _ IH]; intros i clusters; [reflexivity|].
  cbn [trace_loop]. rewrite (merge_step_same_but_distance _ _ _ _ _ Hr).
  destruct (merge_step N i r2 clusters) as [c|e]; simpl; [|reflexivity].
  destruct (truthy oracle && count_reached c oracle); [reflexivity | apply IH].
Qed.

(** C10. The threshold and the distance column are not read: two calls
    whose thresholds differ, and whose matrices agree on every column but
    the distance, return the same dictionary (or raise the same error). *)
Theorem trace_back_ignores_threshold_and_distance
    (rows1 rows2 : list merge_record) (threshold1 threshold2 : Q)
    (oracle_num_spkrs : option Z) :
  Forall2 same_but_distance rows1 rows2 ->
  trace_back_cluster_labels rows1 threshold1 oracle_num_spkrs
  = trace_back_cluster_labels rows2 threshold2 oracle_num_spkrs.
Proof.
  intros H. unfold trace_back_cluster_labels.
  rewrite (Forall2_length _ _ _ H).
  apply trace_loop_same_but_distance, H.
Qed.

Lemma trace_back_ignores_threshold_and_distance_witness :
  trace_back_cluster_labels
    [ mk_merge_record 0 1 0.1 2; mk_merge_record 2 3 0.7 3 ] 0.9 (Some 2%Z)
  = trace_back_cluster_labels
      [ mk_merge_record 0 1 0.4 2; mk_merge_record 2 3 0.5 3 ] 0.2 (Some 2%Z).
Proof.
  apply trace_back_ignores_threshold_and_distance.
  repeat constructor.
Defined.

(** ** The RTTM writer *)

Lemma string_app_assoc (s1 s2 s3 : string) :
  (s1 +:+ s2) +:+ s3 = s1 +:+ (s2 +:+ s3).
Proof.
  induction s1 as [|c s1 IH]; [reflexivity|].
  change (String c ((s1 +:+ s2) +:+ s3) = String c (s1 +:+ (s2 +:+ s3))).
  rewrite IH. reflexivity.
Qed.

Lemma string_app_empty_r (s : string) : s +:+ "" = s.
Proof.
  induction s as [|c s IH]; [reflexivity|].
  change (String c (s +:+ "") = String c s). rewrite IH. reflexivity.
Qed.

Section RTTM_facts.
Variable round4 : Q -> Q.
Variable str_float : Q -> string.

Lemma build_rttm_map rec_id segs_list :
  build_rttm round4 str_float rec_id segs_list
  = map (rttm_row round4 str_float rec_id) segs_list.
Proof.
  unfold build_rttm.
  assert (H : forall acc,
    foldl (fun rttm seg => rttm ++ [rttm_row round4 str_float rec_id seg]) acc segs_list
    = acc ++ map (rttm_row round4 str_float rec_id) segs_list).
  { induction segs_list as [|seg segs IH]; intros acc; simpl.
    - rewrite app_nil_r. reflexivity.
    - rewrite IH, <- app_assoc. reflexivity. }
  apply (H []).
Qed.

Lemma write_rows_concat rttm :
  write_rows rttm = concat_lines (map (fun row => py_join " " row +:+ newline) rttm).
Proof.
  unfold write_rows.
  assert (H : forall f,
    foldl (fun f row => f +:+ (py_join " " row +:+ newline)) f rttm
    = f +:+ concat_lines (map (fun row => py_join " " row +:+ newline) rttm)).
  { induction rttm as [|row rows IH]; intros f; cbn [foldl map concat_lines foldr].
    - rewrite string_app_empty_r. reflexivity.
    - rewrite IH, string_app_assoc. reflexivity. }
  apply (H "").
Qed.

(** C8. For a non-empty segment list whose segments all carry the
    recording id [r], [write_rttm] leaves in the output file one line per
    segment, in order, each the ten fields [SPEAKER], [r], [0], the string
    of the start rounded to 4 decimals, the string of [end - start]
    rounded to 4 decimals, [<NA>], [<NA>], the speaker label, [<NA>],
    [<NA>], joined by single spaces and followed by a newline. *)
Theorem write_rttm_lines (segs_list : list subseg) (r : string)
    (out_rttm_file : string) (fs : gmap string string) :
  segs_list <> [] ->
  Forall (fun seg => rec_id seg = r) segs_list ->
  let fields := fun seg : subseg =>
    [ "SPEAKER"; r; "0";
      str_float (round4 (sseg_start seg));
      str_float (round4 (sseg_end seg - sseg_start seg));
      "<NA>"; "<NA>"; spkr_id seg; "<NA>"; "<NA>" ] in
  write_rttm round4 str_float segs_list out_rttm_file fs
  = OK (<[out_rttm_file :=
            concat_lines
              (map (fun seg => py_join " " (fields seg) +:+ newline) segs_list)]> fs)
  /\ (forall seg, length (fields seg) = 10%nat)
  /\ (forall seg,
        py_join " " (fields seg) +:+ newline
        = "SPEAKER " +:+ r +:+ " 0 "
          +:+ str_float (round4 (sseg_start seg)) +:+ " "
          +:+ str_float (round4 (sseg_end seg - sseg_start seg))
          +:+ " <NA> <NA> " +:+ spkr_id seg +:+ " <NA> <NA>" +:+ newline).
Proof.
  intros Hne Hrec fields. split; [|split].
  - destruct segs_list as [|seg0 segs]; [done|].
    unfold write_rttm. rewrite build_rttm_map, write_rows_concat, map_map.
    apply Forall_cons in Hrec as [Hr _]. rewrite Hr. reflexivity.
  - reflexivity.
  - intros seg. unfold fields. cbn [py_join].
    rewrite !string_app_assoc. simpl. reflexivity.
Qed.
End RTTM_facts.

Lemma write_rttm_lines_witness :
  write_rttm exact_round4 exact_str
    [ mk_sseg "R1" 0 3 "R1_0"; mk_sseg "R1" 3 4.5 "R1_1" ] "R1.rttm" ∅
  = OK {[ "R1.rttm" :=
            "SPEAKER R1 0 0.0 3.0 <NA> <NA> R1_0 <NA> <NA>" +:+ newline
            +:+ "SPEAKER R1 0 3.0 1.5 <NA> <NA> R1_1 <NA> <NA>" +:+ newline ]}.
Proof.
  destruct (write_rttm_lines exact_round4 exact_str
              [ mk_sseg "R1" 0 3 "R1_0"; mk_sseg "R1" 3 4.5 "R1_1" ] "R1"
              "R1.rttm" ∅) as (H & _ & _).
  - discriminate.
  - repeat constructor.
  - rewrite H. vm_compute. reflexivity.
Defined.

(** * Further properties of the boundary resolver *)

(** ** The merge pass *)

Lemma merge_loop_length rest : forall sseg new_lol,
  (length (fst (merge_loop sseg new_lol rest)) <= length new_lol + length rest)%nat.
Proof.
  induction rest as [|next_sseg rest IH]; intros sseg new_lol; simpl; [lia|].
  destruct (is_overlapped _ _ && _).
  - specialize (IH (set_end sseg (sseg_end next_sseg)) new_lol). lia.
  - specialize (IH next_sseg (new_lol ++ [sseg])). rewrite length_app in IH.
    simpl in IH. lia.
Qed.

(** X1. Whenever [merge_ssegs_same_speaker] returns, its output has fewer
    elements than its input: at least the last accumulator is left out. *)
Theorem merge_output_shorter (lol out : list subseg) :
  merge_ssegs_same_speaker lol = OK out ->
  (length out < length lol)%nat.
Proof.
  destruct lol as [|sseg rest]; [done|]. simpl. intros [= <-].
  pose proof (merge_loop_length rest sseg []) as H. simpl in H. lia.
Qed.

Lemma merge_output_shorter_witness :
  exists out, merge_ssegs_same_speaker scenario = OK out
              /\ (length out < length scenario)%nat.
Proof.
  eexists. split; [reflexivity|].
  apply (merge_output_shorter scenario). reflexivity.
Defined.

(** X2. No two neighbours of the list returned by
    [merge_ssegs_same_speaker] have the same speaker with the second
    starting no later than the first ends. *)
Theorem merge_output_neighbours_differ (lol out : list subseg) :
  merge_ssegs_same_speaker lol = OK out ->
  forall i cur next,
    out !! i = Some cur -> out !! (S i) = Some next ->
    ~ (sseg_start next <= sseg_end cur /\ spkr_id cur = spkr_id next).
Proof.
  intros H i cur next Hc Hn [Hov Hsp].
  apply merge_output_not_mergeable in H.
  pose proof (proj1 (adjacent_lookup not_mergeable out) H i cur next Hc Hn) as Hnm.
  unfold not_mergeable in Hnm.
  apply is_overlapped_true in Hov. rewrite Hov, Hsp in Hnm.
  rewrite String.eqb_refl in Hnm. discriminate Hnm.
Qed.

Lemma merge_output_neighbours_differ_witness :
  exists out, merge_ssegs_same_speaker scenario = OK out
    /\ forall i cur next,
         out !! i = Some cur -> out !! (S i) = Some next ->
         ~ (sseg_start next <= sseg_end cur /\ spkr_id cur = spkr_id next).
Proof.
  eexists. split; [reflexivity|].
  apply (merge_output_neighbours_differ scenario). reflexivity.
Defined.

Lemma merge_loop_keys rest : forall sseg new_lol,
  let r := merge_loop sseg new_lol rest in
  map seg_key (fst r ++ [snd r]) `sublist_of` map seg_key (new_lol ++ sseg :: rest).
Proof.
  induction rest as [|next_sseg rest IH]; intros sseg new_lol; simpl.
  - reflexivity.
  - destruct (is_overlapped _ _ && _).
    + etrans; [apply IH|]. rewrite !map_app. apply sublist_app; [reflexivity|].
      simpl. apply sublist_skip, sublist_cons. reflexivity.
    + etrans; [apply IH|]. rewrite <- app_assoc. reflexivity.
Qed.

(** X3. The merge pass only deletes elements and rewrites end times: the
    (recording id, start, speaker) triples of its output are a subsequence
    of those of its input. *)
Theorem merge_output_keys_sublist (lol out : list subseg) :
  merge_ssegs_same_speaker lol = OK out ->
  map seg_key out `sublist_of` map seg_key lol.
Proof.
  destruct lol as [|sseg rest]; [done|]. simpl. intros [= <-].
  pose proof (merge_loop_keys rest sseg []) as H. simpl in H.
  etrans; [|apply H]. rewrite map_app. apply sublist_inserts_r. reflexivity.
Qed.

Lemma merge_output_keys_sublist_witness :
  exists out, merge_ssegs_same_speaker scenario = OK out
              /\ map seg_key out `sublist_of` map seg_key scenario.
Proof.
  eexists. split; [reflexivity|].
  apply (merge_output_keys_sublist scenario). reflexivity.
Defined.

Lemma merge_loop_sorted rest : forall sseg new_lol,
  sorted_by_start (new_lol ++ sseg :: rest) ->
  let r := merge_loop sseg new_lol rest in sorted_by_start (fst r ++ [snd r]).
Proof.
  unfold sorted_by_start.
  induction rest as [|next_sseg rest IH]; intros sseg new_lol Hs; simpl; [done|].
  destruct (is_overlapped _ _ && _).
  - apply IH. apply adjacent_app in Hs as [Hl Hr].
    apply adjacent_cons in Hr as [Hsn Hr]. specialize (Hsn _ eq_refl).
    apply adjacent_cons in Hr as [Hny Hr].
    apply adjacent_app. split.
    + apply adjacent_snoc in Hl as [Hl Hlast]. apply adjacent_snoc.
      split; [done|]. intros p Hp. specialize (Hlast p Hp). done.
    + apply adjacent_cons. split; [|done]. intros y Hy. specialize (Hny y Hy).
      simpl in *. lra.
  - apply IH. rewrite <- app_assoc. done.
Qed.

(** X4. On an input sorted by start time the merge pass returns a list
    sorted by start time. *)
Theorem merge_output_sorted (lol out : list subseg) :
  sorted_by_start lol ->
  merge_ssegs_same_speaker lol = OK out ->
  sorted_by_start out.
Proof.
  intros Hs. destruct lol as [|sseg rest]; [done|]. simpl. intros [= <-].
  pose proof (merge_loop_sorted rest sseg [] Hs) as H. simpl in H.
  apply adjacent_snoc in H as [H _]. exact H.
Qed.

Lemma merge_output_sorted_witness :
  exists out, merge_ssegs_same_speaker scenario = OK out /\ sorted_by_start out.
Proof.
  eexists. split; [reflexivity|].
  apply (merge_output_sorted scenario); [|reflexivity].
  unfold sorted_by_start, scenario. simpl.
  repeat split; apply Qle_bool_imp_le; reflexivity.
Defined.

Lemma merge_loop_all_mergeable rest : forall sseg x new_lol,
  sseg_end sseg = sseg_end x -> spkr_id sseg = spkr_id x ->
  adjacent mergeable (x :: rest) ->
  fst (merge_loop sseg new_lol rest) = new_lol.
Proof.
  induction rest as [|next_sseg rest IH]; intros sseg x new_lol He Hk Hadj; simpl.
  - reflexivity.
  - apply adjacent_cons in Hadj as [Hx Hadj]. destruct (Hx _ eq_refl) as [Hov Hsp].
    rewrite He, Hk.
    apply is_overlapped_true in Hov. rewrite Hov.
    rewrite Hsp, String.eqb_refl. simpl.
    apply (IH _ next_sseg); [reflexivity | simpl; congruence | done].
Qed.

(** X5. When every sub-segment has the speaker of its predecessor and
    starts no later than its predecessor ends (a one-speaker recording),
    the merge pass returns the empty list and the two passes raise
    IndexError. *)
Theorem one_speaker_recording_raises (lol : list subseg) :
  lol <> [] ->
  adjacent mergeable lol ->
  merge_ssegs_same_speaker lol = OK []
  /\ merge_then_distribute lol = Raise IndexError.
Proof.
  intros Hne Hadj. destruct lol as [|sseg rest]; [done|].
  assert (H : merge_ssegs_same_speaker (sseg :: rest) = OK []).
  { simpl. f_equal. apply (merge_loop_all_mergeable rest sseg sseg []); done. }
  split; [exact H|]. unfold merge_then_distribute. rewrite H. reflexivity.
Qed.

Lemma one_speaker_recording_raises_witness :
  let lol := [ mk_sseg "R1" 0 3 "A"; mk_sseg "R1" 1.5 4.5 "A"; mk_sseg "R1" 3 6 "A" ] in
  merge_ssegs_same_speaker lol = OK []
  /\ merge_then_distribute lol = Raise IndexError.
Proof.
  intros lol. apply (one_speaker_recording_raises lol); [discriminate|].
  unfold lol, mergeable. simpl.
  repeat split; try reflexivity; apply Qle_bool_imp_le; reflexivity.
Defined.

(** ** The overlap pass *)

Lemma sseg_eqb_start_lt p s :
  sseg_start p < sseg_start s -> sseg_eqb p s = false.
Proof.
  intros Hlt. destruct (sseg_eqb p s) eqn:He; [|reflexivity].
  apply sseg_eqb_start in He. lra.
Qed.

Lemma distribute_loop_separated rest : forall sseg new_lol nxt,
  adjacent gap (sseg :: rest) ->
  Forall positive (sseg :: rest) ->
  (forall p, last new_lol = Some p -> sseg_start p < sseg_start sseg) ->
  let st' := distribute_loop (mk_dist_state new_lol sseg nxt) rest in
  ds_new_lol st' ++ [ds_sseg st'] = new_lol ++ sseg :: rest.
Proof.
  induction rest as [|next_sseg rest IH]; intros sseg new_lol nxt Hgap Hpos Hlast.
  - reflexivity.
  - apply adjacent_cons in Hgap as [Hg Hgap]. specialize (Hg _ eq_refl).
    unfold gap in Hg.
    apply Forall_cons in Hpos as [Hps Hpos]. unfold positive in Hps.
    cbn [distribute_loop]. unfold distribute_step. cbn [ds_sseg ds_new_lol].
    rewrite (proj2 (is_overlapped_false _ _) Hg).
    assert (Ha : append_unless_last new_lol sseg = new_lol ++ [sseg]).
    { unfold append_unless_last. destruct (last new_lol) as [p|] eqn:Hl; [|done].
      rewrite (sseg_eqb_start_lt p sseg (Hlast p eq_refl)). reflexivity. }
    rewrite Ha. rewrite (IH next_sseg (new_lol ++ [sseg]) (Some next_sseg) Hgap Hpos).
    + rewrite <- app_assoc. reflexivity.
    + intros p Hp. rewrite last_snoc in Hp. injection Hp as <-. lra.
Qed.

(** X6. On a list of at least two segments, each with [end > start] and
    each starting strictly after its predecessor ends, [distribute_overlap]
    returns its input unchanged. *)
Theorem distribute_overlap_separated (lol : list subseg) :
  (2 <= length lol)%nat ->
  adjacent gap lol ->
  Forall positive lol ->
  distribute_overlap lol = OK lol.
Proof.
  intros Hlen Hgap Hpos.
  destruct lol as [|s [|x rest]]; [simpl in Hlen; lia | simpl in Hlen; lia |].
  rewrite distribute_overlap_cons2. cbv zeta. f_equal.
  apply (distribute_loop_separated (x :: rest) s [] None Hgap Hpos).
  intros p [=].
Qed.

Lemma distribute_overlap_separated_witness :
  let lol := [ mk_sseg "R1" 0 2 "A"; mk_sseg "R1" 3 5 "B"; mk_sseg "R1" 6 8 "A" ] in
  distribute_overlap lol = OK lol.
Proof.
  intros lol. apply (distribute_overlap_separated lol).
  - simpl. lia.
  - unfold lol, gap. simpl. repeat split; reflexivity.
  - unfold lol. repeat apply Forall_cons_2; try apply Forall_nil_2; reflexivity.
Defined.

Lemma append_unless_last_head new_lol sseg :
  head (append_unless_last new_lol sseg)
  = match head new_lol with Some h => Some h | None => Some sseg end.
Proof.
  unfold append_unless_last. destruct new_lol as [|h l]; [reflexivity|].
  destruct (last (h :: l)); [destruct (negb _)|]; reflexivity.
Qed.

Lemma append_unless_last_length new_lol sseg :
  (1 <= length (append_unless_last new_lol sseg) <= S (length new_lol))%nat.
Proof.
  unfold append_unless_last. destruct (last new_lol) as [p|] eqn:Hl.
  - assert (new_lol <> []) by (intros ->; done).
    destruct (negb _); [rewrite length_app; simpl; lia|].
    destruct new_lol; [done | simpl; lia].
  - rewrite length_app. simpl. lia.
Qed.

Lemma distribute_step_shape st next_sseg :
  let st' := distribute_step st next_sseg in
  (1 <= length (ds_new_lol st') <= S (length (ds_new_lol st)))%nat
  /\ (exists h, head (ds_new_lol st') = Some h
        /\ match head (ds_new_lol st) with
           | Some h0 => h = h0
           | None => same_head (ds_sseg st) h
           end)
  /\ same_tail next_sseg (ds_sseg st').
Proof.
  unfold distribute_step.
  destruct (is_overlapped _ _); cbn [ds_new_lol ds_sseg];
    (split; [apply append_unless_last_length|]);
    (split; [|done]);
    rewrite append_unless_last_head;
    destruct (head (ds_new_lol st)); eauto; eexists; (split; [reflexivity|done]).
Qed.

Lemma distribute_loop_shape rest : forall st h0,
  head (ds_new_lol st) = Some h0 ->
  let st' := distribute_loop st rest in
  (length (ds_new_lol st') <= length (ds_new_lol st) + length rest)%nat
  /\ head (ds_new_lol st') = Some h0
  /\ (forall l0, last rest = Some l0 -> same_tail l0 (ds_sseg st')).
Proof.
  induction rest as [|next_sseg rest IH]; intros st h0 Hh; simpl.
  - split; [lia|]. split; [done|]. intros l0 [=].
  - destruct (distribute_step_shape st next_sseg) as (Hlen & (h & Hh' & Hrel) & Htail).
    rewrite Hh in Hrel. subst h.
    destruct (IH _ h0 Hh') as (IHlen & IHhead & IHlast).
    split; [lia|]. split; [done|].
    intros l0 Hl0. destruct rest as [|y rest'].
    + simpl in Hl0. injection Hl0 as <-. exact Htail.
    + apply IHlast. rewrite last_cons_cons in Hl0. exact Hl0.
Qed.

(** X7. Whenever [distribute_overlap] returns, its output has at least two
    and at most as many elements as its input; its first element has the
    recording id, start time and speaker of the first input element, and
    its last element the recording id, end time and speaker of the last
    input element. *)
Theorem distribute_overlap_shape (lol out : list subseg) :
  distribute_overlap lol = OK out ->
  (2 <= length out <= length lol)%nat
  /\ exists f0 l0 f1 l1,
       head lol = Some f0 /\ last lol = Some l0
       /\ head out = Some f1 /\ last out = Some l1
       /\ same_head f0 f1 /\ same_tail l0 l1.
Proof.
  destruct lol as [|s [|x rest]]; [done | done |].
  rewrite distribute_overlap_cons2. cbv zeta. intros [= <-].
  cbn [distribute_loop].
  destruct (distribute_step_shape (mk_dist_state [] s None) x)
    as (Hlen & (h & Hh & Hrel) & Htail).
  cbn [ds_new_lol ds_sseg head] in Hlen, Hrel.
  set (st1 := distribute_step (mk_dist_state [] s None) x) in *.
  destruct (distribute_loop_shape rest st1 h Hh) as (Hlen' & Hhead & Hlast).
  set (st' := distribute_loop st1 rest) in *.
  assert (Hne : ds_new_lol st' <> []) by (intros E; rewrite E in Hhead; done).
  split.
  - rewrite length_app. simpl in *.
    destruct (ds_new_lol st'); [done|]. simpl in *. lia.
  - destruct (last (x :: rest)) as [l0|] eqn:Hl0;
      [|apply last_None in Hl0; done].
    exists s, l0, h, (ds_sseg st').
    split; [done|]. split; [rewrite last_cons, Hl0; done|].
    split; [rewrite head_app, Hhead; done|].
    split; [apply last_snoc|]. split; [done|].
    destruct rest as [|y rest'].
    + simpl in Hl0. injection Hl0 as <-. exact Htail.
    + apply Hlast. rewrite last_cons_cons in Hl0. exact Hl0.
Qed.

Lemma distribute_overlap_shape_witness :
  let lol := [ mk_sseg "R1" 0 3 "A"; mk_sseg "R1" 3 5 "B"; mk_sseg "R1" 4 6 "A" ] in
  exists out,
    distribute_overlap lol = OK out
    /\ (2 <= length out <= length lol)%nat
    /\ exists f0 l0 f1 l1,
         head lol = Some f0 /\ last lol = Some l0
         /\ head out = Some f1 /\ last out = Some l1
         /\ same_head f0 f1 /\ same_tail l0 l1.
Proof.
  intros lol. eexists. split; [reflexivity|].
  apply (distribute_overlap_shape lol). reflexivity.
Defined.

(** * Further properties of the traceback *)

Lemma trace_back_oracle_partition_witness :
  exists clusters,
    trace_back_cluster_labels linkage5 0.9 (Some 2%Z) = OK clusters
    /\ Z.of_nat (size clusters) = 2%Z
    /\ map_Forall (fun _ l => l <> []) clusters
    /\ cluster_members clusters ≡ₚ seqZ 0 5.
Proof.
  apply (trace_back_oracle_partition linkage5 0.9 2);
    [reflexivity | unfold linkage5; simpl; lia].
Defined.

(** A row that names a cluster that does not exist, or the same cluster
    twice, makes the merge raise KeyError. *)
Lemma merge_step_invalid N i row clusters alive M :
  clusters_inv alive clusters M ->
  ~ (py_int (col0 row) ∈ alive /\ py_int (col1 row) ∈ alive
     /\ py_int (col0 row) <> py_int (col1 row)) ->
  merge_step N i row clusters = Raise KeyError.
Proof.
  intros (Hk & _ & _) Hbad. unfold merge_step, dict_get, dict_pop.
  destruct (clusters !! str (py_int (col0 row))) as [la|] eqn:Hla; [|done].
  destruct (clusters !! str (py_int (col1 row))) as [lb|] eqn:Hlb; [|done].
  simpl.
  assert (Ha : py_int (col0 row) ∈ alive) by (apply Hk; eauto).
  assert (Hb : py_int (col1 row) ∈ alive) by (apply Hk; eauto).
  destruct (decide (py_int (col0 row) = py_int (col1 row))) as [E|E]; [|tauto].
  rewrite <- E.
  destruct (<[str (N + i):=la ++ lb]> clusters !! str (py_int (col0 row))); [|done].
  simpl. rewrite lookup_delete_eq. reflexivity.
Qed.

Lemma trace_loop_invalid N oracle M rows : forall i alive clusters,
  truthy oracle = false ->
  valid_merges alive (N + i) rows = false ->
  below (N + i) alive ->
  clusters_inv alive clusters M ->
  trace_loop N oracle i rows clusters = Raise KeyError.
Proof.
  induction rows as [|row rows IH]; intros i alive clusters Hf Hv Hb Hinv.
  - done.
  - cbn [trace_loop].
    destruct (decide (py_int (col0 row) ∈ alive /\ py_int (col1 row) ∈ alive
                      /\ py_int (col0 row) <> py_int (col1 row)))
      as [(Ha & Hb' & Hab)|Hbad].
    + destruct (merge_step_spec N i row clusters alive M Hinv Ha Hb' Hab
                  (below_fresh _ _ Hb)) as (c' & Hstep & Hinv' & _).
      rewrite Hstep. simpl. rewrite Hf. simpl.
      apply (IH (i + 1)%Z
               ({[(N + i)%Z]} ∪ (alive ∖ {[py_int (col0 row); py_int (col1 row)]}))).
      * done.
      * simpl in Hv. rewrite !bool_decide_eq_true_2 in Hv by done. simpl in Hv.
        replace (N + (i + 1))%Z with (N + i + 1)%Z by lia. exact Hv.
      * replace (N + (i + 1))%Z with (N + i + 1)%Z by lia. apply below_step, Hb.
      * done.
    + rewrite (merge_step_invalid N i row clusters alive M Hinv Hbad). reflexivity.
Qed.

(** X9. With a falsy speaker count, a matrix that is not a linkage matrix
    (some row names a cluster that does not exist at that point, or the
    same cluster twice) makes the traceback raise KeyError. *)
Theorem trace_back_invalid_linkage_raises
    (cluster_map_traverse : list merge_record) (threshold : Q)
    (oracle_num_spkrs : option Z) :
  truthy oracle_num_spkrs = false ->
  valid_linkage cluster_map_traverse = false ->
  trace_back_cluster_labels cluster_map_traverse threshold oracle_num_spkrs
  = Raise KeyError.
Proof.
  intros Hf Hv. unfold trace_back_cluster_labels.
  set (N := (Z.of_nat (length cluster_map_traverse) + 1)%Z).
  destruct (init_clusters_inv N) as [Hinv _].
  apply (trace_loop_invalid N oracle_num_spkrs (seqZ 0 N) _ 0
           (list_to_set (seqZ 0 N))); try done.
  - rewrite Z.add_0_r. exact Hv.
  - intros z Hz. apply elem_of_list_to_set, elem_of_seqZ in Hz. lia.
Qed.

Lemma trace_back_invalid_linkage_raises_witness :
  trace_back_cluster_labels
    [ mk_merge_record 0 1 0.1 2; mk_merge_record 0 2 0.2 3 ] 0.9 None
  = Raise KeyError.
Proof.
  apply trace_back_invalid_linkage_raises; reflexivity.
Defined.

Lemma trace_loop_negative N k rows : forall i clusters,
  (k < 0)%Z ->
  trace_loop N (Some k) i rows clusters = trace_loop N None i rows clusters.
Proof.
  induction rows as [|row rows IH]; intros i clusters Hk; [reflexivity|].
  cbn [trace_loop]. destruct (merge_step N i row clusters) as [c|e]; [|reflexivity].
  simpl. assert (Hc : (Z.of_nat (size c) <=? k)%Z = false) by (apply Z.leb_gt; lia).
  rewrite Hc, andb_false_r. apply IH, Hk.
Qed.

(** X10. A negative speaker count is truthy but never reached: the
    traceback behaves as with no count and applies every row. *)
Theorem trace_back_negative_count
    (cluster_map_traverse : list merge_record) (threshold : Q) (k : Z) :
  (k < 0)%Z ->
  trace_back_cluster_labels cluster_map_traverse threshold (Some k)
  = trace_back_cluster_labels cluster_map_traverse threshold None.
Proof. intros Hk. apply trace_loop_negative, Hk. Qed.

Lemma trace_back_negative_count_witness :
  trace_back_cluster_labels linkage5 0.9 (Some (-1)%Z)
  = trace_back_cluster_labels linkage5 0.9 None.
Proof.
  apply trace_back_negative_count. lia.
Defined.

Lemma trace_loop_cut N k M rows2 rows1 : forall i alive clusters,
  valid_merges alive (N + i) rows1 = true ->
  below (N + i) alive ->
  clusters_inv alive clusters M ->
  rows1 <> [] -> (1 <= k)%Z ->
  (Z.of_nat (size clusters) <= k + Z.of_nat (length rows1))%Z ->
  trace_loop N (Some k) i (rows1 ++ rows2) clusters
  = trace_loop N (Some k) i rows1 clusters.
Proof.
  induction rows1 as [|row rows1 IH]; intros i alive clusters Hv Hb Hinv Hne Hk Hsz.
  - done.
  - apply valid_merges_cons in Hv as (Ha & Hb' & Hab & Hv).
    destruct (merge_step_spec N i row clusters alive M Hinv Ha Hb' Hab
                (below_fresh _ _ Hb)) as (c' & Hstep & Hinv' & Hsize).
    rewrite <- app_comm_cons. cbn [trace_loop]. rewrite Hstep. simpl.
    assert (Ht : (k =? 0)%Z = false) by (apply Z.eqb_neq; lia).
    rewrite Ht. simpl.
    destruct ((Z.of_nat (size c') <=? k)%Z) eqn:Hc.
    + reflexivity.
    + apply Z.leb_gt in Hc.
      replace (N + i + 1)%Z with (N + (i + 1))%Z in Hv by lia.
      apply (IH (i + 1)%Z _ c' Hv); try done.
      * replace (N + (i + 1))%Z with (N + i + 1)%Z by lia. apply below_step, Hb.
      * intros ->. simpl in Hsz. lia.
      * simpl length in Hsz. lia.
Qed.

(** X11. Rows past the cut are never read. If the first rows of the matrix
    are valid merges and bring the number of clusters down to the count
    [k >= 1], the rows after them can be replaced by any others, valid or
    not, without changing the result. *)
Theorem trace_back_rows_after_cut_ignored
    (rows1 rows2 rows2' : list merge_record) (threshold : Q) (k : Z) :
  length rows2 = length rows2' ->
  let N := (Z.of_nat (length (rows1 ++ rows2)) + 1)%Z in
  valid_merges (list_to_set (seqZ 0 N)) N rows1 = true ->
  rows1 <> [] -> (1 <= k)%Z -> (N <= k + Z.of_nat (length rows1))%Z ->
  trace_back_cluster_labels (rows1 ++ rows2) threshold (Some k)
  = trace_back_cluster_labels (rows1 ++ rows2') threshold (Some k).
Proof.
  intros Hlen N Hv Hne Hk Hcut. unfold trace_back_cluster_labels.
  assert (HN : (Z.of_nat (length (rows1 ++ rows2')) + 1)%Z = N).
  { unfold N. rewrite !length_app, Hlen. reflexivity. }
  rewrite HN. fold N.
  destruct (init_clusters_inv N) as [Hinv Hsz].
  assert (Hb : below (N + 0) (list_to_set (seqZ 0 N))).
  { intros z Hz. apply elem_of_list_to_set, elem_of_seqZ in Hz. lia. }
  assert (Hv0 : valid_merges (list_to_set (seqZ 0 N)) (N + 0) rows1 = true)
    by (rewrite Z.add_0_r; exact Hv).
  assert (Hsize : (Z.of_nat (size (init_clusters N)) <= k + Z.of_nat (length rows1))%Z).
  { rewrite Hsz. unfold N in *. lia. }
  rewrite (trace_loop_cut N k (seqZ 0 N) rows2 rows1 0 _ _ Hv0 Hb Hinv Hne Hk Hsize).
  rewrite (trace_loop_cut N k (seqZ 0 N) rows2' rows1 0 _ _ Hv0 Hb Hinv Hne Hk Hsize).
  reflexivity.
Qed.

Lemma trace_back_rows_after_cut_ignored_witness :
  trace_back_cluster_labels
    ([ mk_merge_record 0 1 0.1 2; mk_merge_record 3 4 0.2 2 ]
     ++ [ mk_merge_record 2 5 0.3 3; mk_merge_record 6 7 0.4 5 ]) 0.9 (Some 3%Z)
  = trace_back_cluster_labels
      ([ mk_merge_record 0 1 0.1 2; mk_merge_record 3 4 0.2 2 ]
       ++ [ mk_merge_record 9 9 0.3 3; mk_merge_record 0 0 0.4 5 ]) 0.9 (Some 3%Z).
Proof.
  apply trace_back_rows_after_cut_ignored; try reflexivity; discriminate.
Defined.

(** * Strings *)

Lemma string_app_cons (c : ascii) (s t : string) :
  String c s +:+ t = String c (s +:+ t).
Proof. reflexivity. Qed.

Lemma prefix_app (p s : string) :
  String.prefix p s = true <-> exists t, s = p +:+ t.
Proof.
  revert s. induction p as [|c p IH]; intros s.
  - split; [intros _; exists s; reflexivity | intros _; destruct s; reflexivity].
  - destruct s as [|d s].
    + split; [discriminate | intros [t Ht]; discriminate Ht].
    + simpl. destruct (ascii_dec c d) as [->|Hne].
      * rewrite IH. split; intros [t Ht]; exists t.
        -- rewrite string_app_cons, <- Ht. reflexivity.
        -- rewrite string_app_cons in Ht. injection Ht as Ht. exact Ht.
      * split; [discriminate|]. intros [t Ht].
        rewrite string_app_cons in Ht. injection Ht as Hc _. congruence.
Qed.

Lemma prefix_trans (p q s : string) :
  String.prefix p q = true -> String.prefix q s = true -> String.prefix p s = true.
Proof.
  rewrite !prefix_app. intros [t ->] [u ->]. exists (t +:+ u).
  apply string_app_assoc.
Qed.

Lemma str_contains_app (sub s : string) :
  str_contains sub s = true <-> exists pre post, s = pre +:+ sub +:+ post.
Proof.
  induction s as [|c s IH].
  - cbn [str_contains]. rewrite orb_false_r, prefix_app. split.
    + intros [t Ht]. exists "", t. exact Ht.
    + intros (pre & post & H). destruct pre as [|d pre]; [eauto|discriminate H].
  - cbn [str_contains]. rewrite orb_true_iff, prefix_app, IH. split.
    + intros [[t Ht]|(pre & post & Ht)].
      * exists "", t. exact Ht.
      * exists (String c pre), post. rewrite string_app_cons, <- Ht. reflexivity.
    + intros (pre & post & Ht). destruct pre as [|d pre].
      * left. exists post. exact Ht.
      * right. rewrite string_app_cons in Ht. injection Ht as _ Ht. eauto.
Qed.

Lemma str_contains_trans (r1 r2 s : string) :
  str_contains r1 r2 = true -> str_contains r2 s = true -> str_contains r1 s = true.
Proof.
  rewrite !str_contains_app. intros (p1 & q1 & ->) (p2 & q2 & ->).
  exists (p2 +:+ p1), (q1 +:+ q2). rewrite !string_app_assoc. reflexivity.
Qed.

(** * The oracle number of speakers *)

Lemma get_oracle_num_spkrs_mono_loop (r1 r2 : string) (spkr_info : list string) :
  str_contains r1 r2 = true ->
  forall n1 n2 : Z, (n2 <= n1)%Z ->
  (foldl (fun num_spkrs line =>
            if str_contains r2 line then (num_spkrs + 1)%Z else num_spkrs)
         n2 spkr_info
   <= foldl (fun num_spkrs line =>
               if str_contains r1 line then (num_spkrs + 1)%Z else num_spkrs)
            n1 spkr_info)%Z.
Proof.
  intros Hsub. induction spkr_info as [|line lines IH]; intros n1 n2 Hn; simpl; [done|].
  apply IH. destruct (str_contains r2 line) eqn:H2.
  - rewrite (str_contains_trans r1 r2 line Hsub H2). lia.
  - destruct (str_contains r1 line); lia.
Qed.

(** X12. [get_oracle_num_spkrs] tests [rec_id in line]: a recording id that
    occurs inside another recording id is given at least the count of that
    other id, since every line of the other recording is counted for it
    too. *)
Theorem get_oracle_num_spkrs_substring (rec_id1 rec_id2 : string)
    (spkr_info : list string) :
  str_contains rec_id1 rec_id2 = true ->
  (get_oracle_num_spkrs rec_id2 spkr_info
   <= get_oracle_num_spkrs rec_id1 spkr_info)%Z.
Proof.
  intros H. apply get_oracle_num_spkrs_mono_loop; [exact H | lia].
Qed.

Lemma get_oracle_num_spkrs_substring_witness :
  let spkr_info := [ "SPKR-INFO IS1009 0 <NA> <NA> <NA> unknown IS1009.A <NA> <NA>";
                     "SPKR-INFO IS1009b 0 <NA> <NA> <NA> unknown IS1009b.A <NA> <NA>";
                     "SPKR-INFO IS1009b 0 <NA> <NA> <NA> unknown IS1009b.B <NA> <NA>" ] in
  (get_oracle_num_spkrs "IS1009b" spkr_info
   <= get_oracle_num_spkrs "IS1009" spkr_info)%Z.
Proof.
  intros spkr_info. apply get_oracle_num_spkrs_substring. reflexivity.
Defined.

(** * The csv of one recording *)

Lemma select_rows_filter rec_id rows : forall entry,
  Forall (fun row => row <> []) rows ->
  select_rows rec_id rows entry = OK (entry ++ List.filter (selected rec_id) rows).
Proof.
  induction rows as [|row rows IH]; intros entry Hne; simpl.
  - rewrite app_nil_r. reflexivity.
  - apply Forall_cons in Hne as [Hrow Hne]. destruct row as [|id row]; [done|].
    simpl. unfold selected at 1. simpl.
    destruct (startswith id rec_id); rewrite (IH _ Hne).
    + rewrite <- app_assoc. reflexivity.
    + reflexivity.
Qed.

Lemma select_rows_empty_row rec_id rows : forall entry,
  [] ∈ rows -> select_rows rec_id rows entry = Raise IndexError.
Proof.
  induction rows as [|row rows IH]; intros entry Hin.
  - apply elem_of_nil in Hin. done.
  - destruct row as [|id row]; [reflexivity|].
    apply elem_of_cons in Hin as [Hin|Hin]; [discriminate Hin|].
    simpl. destruct (startswith id rec_id); apply IH, Hin.
Qed.

Section CSV_facts.
Variable csv_writerow : list string -> string.

Lemma write_csv_concat out_csv :
  write_csv csv_writerow out_csv = concat_lines (map csv_writerow out_csv).
Proof.
  unfold write_csv.
  assert (H : forall f,
    foldl (fun f l => f +:+ csv_writerow l) f out_csv
    = f +:+ concat_lines (map csv_writerow out_csv)).
  { induction out_csv as [|l ls IH]; intros f; cbn [foldl map concat_lines foldr].
    - rewrite string_app_empty_r. reflexivity.
    - rewrite IH, string_app_assoc. reflexivity. }
  apply (H "").
Qed.

(** X13. [prepare_subset_csv] raises IndexError, and writes nothing, when
    the csv is empty or one of its rows, the header included, has no
    field. *)
Theorem prepare_subset_csv_raises (full_diary_csv : list (list string))
    (rec_id out_csv_file : string) (fs : gmap string string) :
  full_diary_csv = [] \/ [] ∈ full_diary_csv ->
  prepare_subset_csv csv_writerow full_diary_csv rec_id out_csv_file fs
  = Raise IndexError.
Proof.
  intros [->|Hin]; [reflexivity|].
  destruct full_diary_csv as [|head rest]; [reflexivity|].
  unfold prepare_subset_csv.
  rewrite (select_rows_empty_row rec_id (head :: rest) [] Hin). reflexivity.
Qed.

Lemma prepare_subset_csv_filter (head : list string)
    (rest : list (list string)) (rec_id out_csv_file : string)
    (fs : gmap string string) :
  Forall (fun row => row <> []) (head :: rest) ->
  prepare_subset_csv csv_writerow (head :: rest) rec_id out_csv_file fs
  = OK (<[out_csv_file :=
            concat_lines
              (map csv_writerow
                 (head :: List.filter (selected rec_id) (head :: rest)))]> fs).
Proof.
  intros Hne. unfold prepare_subset_csv.
  rewrite (select_rows_filter rec_id (head :: rest) [] Hne).
  simpl rbind. rewrite write_csv_concat. reflexivity.
Qed.
(** X14. On a csv whose rows all have a first field, [prepare_subset_csv]
    writes the header row followed by the rows whose first field starts
    with [rec_id], in their order; the selection runs over every row, so the
    header is written a second time when its own first field starts with
    [rec_id]. *)
Theorem prepare_subset_csv_content (head : list string)
    (rest : list (list string)) (rec_id out_csv_file : string)
    (fs : gmap string string) :
  Forall (fun row => row <> []) (head :: rest) ->
  prepare_subset_csv csv_writerow (head :: rest) rec_id out_csv_file fs
  = OK (<[out_csv_file :=
            concat_lines
              (map csv_writerow
                 (head :: List.filter (selected rec_id) (head :: rest)))]> fs).
Proof. apply prepare_subset_csv_filter. Qed.
End CSV_facts.

Lemma prepare_subset_csv_raises_witness :
  prepare_subset_csv (fun row => "") [ ["ID"; "duration"]; []; ["ES2011a_0_300"; "3.0"] ]
    "ES2011a" "ES2011a.csv" ∅
  = Raise IndexError.
Proof.
  apply prepare_subset_csv_raises. right. apply list_elem_of_In. simpl. tauto.
Defined.

Lemma prepare_subset_csv_content_witness :
  let join_comma := fun row : list string => py_join "," row +:+ newline in
  prepare_subset_csv join_comma
    [ ["ID"; "duration"]; ["ES2011a_0_300"; "3.0"]; ["ES2011b_0_300"; "3.0"];
      ["ES2011a_300_600"; "3.0"] ] "ES2011a" "ES2011a.csv" ∅
  = OK {[ "ES2011a.csv" :=
            "ID,duration" +:+ newline +:+ "ES2011a_0_300,3.0" +:+ newline
            +:+ "ES2011a_300_600,3.0" +:+ newline ]}.
Proof.
  intros join_comma.
  rewrite (prepare_subset_csv_content join_comma).
  - vm_compute. reflexivity.
  - repeat apply Forall_cons_2; try apply Forall_nil_2; discriminate.
Defined.

(** * The recording ids of [diarizer] *)

Lemma split_first_prefix sep s : String.prefix (split_first sep s) s = true.
Proof.
  induction s as [|c s IH]; [reflexivity|]. simpl.
  destruct (Ascii.eqb c sep); [reflexivity|]. simpl.
  destruct (ascii_dec c c); [exact IH | done].
Qed.

Lemma insert_unique_elem x l : forall y, y ∈ insert_unique x l <-> y = x \/ y ∈ l.
Proof.
  induction l as [|z l IH]; intros y; simpl.
  - rewrite list_elem_of_singleton. rewrite elem_of_nil. tauto.
  - destruct (String.compare x z) eqn:Hc.
    + apply String.compare_eq_iff in Hc. subst z.
      rewrite elem_of_cons. tauto.
    + rewrite !elem_of_cons. tauto.
    + rewrite !elem_of_cons, IH. tauto.
Qed.

Lemma insert_unique_HdRel x y l :
  str_lt y x -> HdRel str_lt y l -> HdRel str_lt y (insert_unique x l).
Proof.
  intros Hyx Hy. destruct l as [|z l]; simpl; [constructor; done|].
  destruct (String.compare x z); constructor; try done;
    inversion Hy; done.
Qed.

Lemma insert_unique_sorted x l :
  Sorted str_lt l -> Sorted str_lt (insert_unique x l).
Proof.
  induction l as [|z l IH]; intros Hs; simpl.
  - repeat constructor.
  - inversion Hs as [|? ? Hl Hz]; subst.
    destruct (String.compare x z) eqn:Hc.
    + done.
    + constructor; [done|]. constructor. exact Hc.
    + constructor; [apply IH, Hl|].
      apply insert_unique_HdRel; [|done].
      unfold str_lt. rewrite String.compare_antisym, Hc. reflexivity.
Qed.

Lemma sorted_set_spec l :
  Sorted str_lt (sorted_set l) /\ forall y, y ∈ sorted_set l <-> y ∈ l.
Proof.
  induction l as [|x l [IHs IHe]]; simpl.
  - split; [constructor | done].
  - split; [apply insert_unique_sorted, IHs|].
    intros y. rewrite insert_unique_elem, IHe, elem_of_cons. tauto.
Qed.

Section RecIds_facts.
Variable py_isspace : ascii -> bool.

Lemma rstrip_prefix s : String.prefix (rstrip py_isspace s) s = true.
Proof.
  induction s as [|c s IH]; [reflexivity|]. simpl.
  destruct (rstrip py_isspace s) as [|d r] eqn:Hr.
  - destruct (py_isspace c); [reflexivity|]. simpl.
    destruct (ascii_dec c c); [exact IH | done].
  - simpl. destruct (ascii_dec c c); [exact IH | done].
Qed.

Lemma row_rec_id_selected row r :
  row_rec_id py_isspace row = OK r -> selected r row = true.
Proof.
  destruct row as [|id row]; [discriminate|]. unfold row_rec_id. simpl.
  intros [= <-]. unfold selected, startswith. simpl.
  apply (prefix_trans _ (rstrip py_isspace id));
    [apply split_first_prefix | apply rstrip_prefix].
Qed.

Lemma rec_id_column_spec full_csv : forall A,
  rec_id_column py_isspace full_csv = OK A ->
  Forall2 (fun row a => row_rec_id py_isspace row = OK a) full_csv A.
Proof.
  induction full_csv as [|row rows IH]; intros A; simpl.
  - intros [= <-]. constructor.
  - destruct (row_rec_id py_isspace row) as [a|] eqn:Ha; [|discriminate]. simpl.
    destruct (rec_id_column py_isspace rows) as [A'|]; [|discriminate]. simpl.
    intros [= <-]. constructor; [exact Ha | apply IH; reflexivity].
Qed.

Lemma all_rec_ids_spec (full_csv : list (list string)) (ids : list string) :
  all_rec_ids py_isspace full_csv = OK ids ->
  Sorted str_lt ids
  /\ forall r, r ∈ ids <->
       exists row, row ∈ tail full_csv /\ row_rec_id py_isspace row = OK r.
Proof.
  unfold all_rec_ids.
  destruct (rec_id_column py_isspace full_csv) as [A|] eqn:HA; [|discriminate].
  simpl. intros [= <-].
  destruct (sorted_set_spec (tail A)) as [Hs He]. split; [exact Hs|].
  intros r. rewrite He.
  apply rec_id_column_spec in HA.
  assert (Ht : Forall2 (fun row a => row_rec_id py_isspace row = OK a)
                 (tail full_csv) (tail A)).
  { destruct HA; [constructor | done]. }
  clear HA He Hs. induction Ht as [|row a rows A' Hra _ IH].
  - split; [intros H; apply elem_of_nil in H; done|].
    intros (row & H & _). apply elem_of_nil in H. done.
  - rewrite elem_of_cons, IH. split.
    + intros [->|(row' & Hin & Hr)].
      * exists row. split; [left | done].
      * exists row'. split; [right; done | done].
    + intros (row' & Hin & Hr). apply elem_of_cons in Hin as [->|Hin].
      * left. congruence.
      * right. eauto.
Qed.

(** X15. The recording ids that [diarizer] iterates over are strictly
    increasing (sorted, without duplicates) and are exactly the ids read
    from the rows after the header: the first field, stripped on the
    right, up to its first underscore. *)
Theorem all_rec_ids_sorted (full_csv : list (list string)) (ids : list string) :
  all_rec_ids py_isspace full_csv = OK ids ->
  Sorted str_lt ids
  /\ forall r, r ∈ ids <->
       exists row, row ∈ tail full_csv /\ row_rec_id py_isspace row = OK r.
Proof. apply all_rec_ids_spec. Qed.

(** X16. For every recording id that [diarizer] iterates over,
    [prepare_subset_csv] returns: its selection holds every row that
    [diarizer] reads as belonging to that recording, and at least one row
    after the header. *)
Theorem recording_subset_not_empty (csv_writerow : list string -> string)
    (full_csv : list (list string)) (ids : list string)
    (r out_csv_file : string) (fs : gmap string string) :
  all_rec_ids py_isspace full_csv = OK ids ->
  r ∈ ids ->
  exists head rest,
    full_csv = head :: rest
    /\ prepare_subset_csv csv_writerow full_csv r out_csv_file fs
       = OK (<[out_csv_file :=
                 concat_lines
                   (map csv_writerow
                      (head :: List.filter (selected r) full_csv))]> fs)
    /\ (forall row, row ∈ full_csv -> row_rec_id py_isspace row = OK r ->
        row ∈ List.filter (selected r) full_csv)
    /\ (exists row, row ∈ rest /\ row ∈ List.filter (selected r) full_csv).
Proof.
  intros Hids Hr.
  destruct (all_rec_ids_spec full_csv ids Hids) as [_ Hmem].
  apply Hmem in Hr as (row & Hin & Hrow).
  destruct full_csv as [|head rest]; [apply elem_of_nil in Hin; done|].
  simpl in Hin. exists head, rest. split; [reflexivity|].
  assert (Hsel : forall row', row' ∈ head :: rest ->
            row_rec_id py_isspace row' = OK r ->
            row' ∈ List.filter (selected r) (head :: rest)).
  { intros row' Hin' Hr'. apply list_elem_of_In, filter_In.
    split; [apply list_elem_of_In, Hin' | apply row_rec_id_selected, Hr']. }
  split; [|split; [exact Hsel|]].
  - apply prepare_subset_csv_filter.
    unfold all_rec_ids in Hids.
    destruct (rec_id_column py_isspace (head :: rest)) as [A|] eqn:HA; [|discriminate].
    apply rec_id_column_spec in HA.
    apply Forall_forall. intros row' Hin'.
    apply list_elem_of_lookup in Hin' as [i Hi].
    destruct (Forall2_lookup_l _ _ _ _ _ HA Hi) as (a & _ & Ha).
    intros ->. discriminate Ha.
  - exists row. split; [exact Hin|]. apply Hsel; [right; exact Hin | exact Hrow].
Qed.
End RecIds_facts.

Lemma all_rec_ids_sorted_witness :
  let full_csv := [ ["ID"; "duration"]; ["ES2011b_0_300 "; "3.0"];
                    ["ES2011a_0_300"; "3.0"]; ["ES2011b_300_600"; "3.0"] ] in
  Sorted str_lt ["ES2011a"; "ES2011b"]
  /\ forall r, r ∈ ["ES2011a"; "ES2011b"] <->
       exists row, row ∈ tail full_csv /\ row_rec_id ascii_isspace row = OK r.
Proof.
  intros full_csv. apply (all_rec_ids_sorted ascii_isspace full_csv). reflexivity.
Defined.

Lemma recording_subset_not_empty_witness :
  let full_csv := [ ["ID"; "duration"]; ["ES2011b_0_300 "; "3.0"];
                    ["ES2011a_0_300"; "3.0"]; ["ES2011b_300_600"; "3.0"] ] in
  exists head rest,
    full_csv = head :: rest
    /\ prepare_subset_csv (fun row => py_join "," row +:+ newline) full_csv
         "ES2011b" "ES2011b.csv" ∅
       = OK (<["ES2011b.csv" :=
                 concat_lines
                   (map (fun row => py_join "," row +:+ newline)
                      (head :: List.filter (selected "ES2011b") full_csv))]> ∅)
    /\ (forall row, row ∈ full_csv -> row_rec_id ascii_isspace row = OK "ES2011b" ->
        row ∈ List.filter (selected "ES2011b") full_csv)
    /\ (exists row, row ∈ rest /\ row ∈ List.filter (selected "ES2011b") full_csv).
Proof.
  intros full_csv.
  apply (recording_subset_not_empty ascii_isspace _ full_csv ["ES2011a"; "ES2011b"]).
  - reflexivity.
  - apply list_elem_of_In. simpl. tauto.
Defined.

(** * Sub-segment ids *)

Lemma split_last_free sep s : has_char sep s = false -> split_last sep s = None.
Proof.
  induction s as [|c s IH]; [reflexivity|]. simpl.
  intros H. apply orb_false_iff in H as [Hc Hs]. rewrite (IH Hs), Hc. reflexivity.
Qed.

Lemma split_last_app sep a b :
  has_char sep b = false ->
  split_last sep (a +:+ String sep b) = Some (a, b).
Proof.
  intros Hb. induction a as [|c a IH].
  - change ("" +:+ String sep b) with (String sep b). simpl.
    rewrite (split_last_free sep b Hb), Ascii.eqb_refl. reflexivity.
  - rewrite string_app_cons. simpl. rewrite IH. reflexivity.
Qed.

Lemma has_char_app c s t : has_char c (s +:+ t) = has_char c s || has_char c t.
Proof.
  induction s as [|d s IH]; [reflexivity|].
  rewrite string_app_cons. simpl. rewrite IH, orb_assoc. reflexivity.
Qed.

Lemma pretty_N_go_free (x : N) : forall s,
  has_char "_" s = false -> has_char "_" (pretty_N_go x s) = false.
Proof.
  induction (N.lt_wf_0 x) as [x _ IH]. intros s Hs.
  destruct (decide (x = 0%N)) as [->|Hx].
  - rewrite pretty_N_go_0. exact Hs.
  - rewrite pretty_N_go_step by lia. apply IH.
    + apply N.div_lt; lia.
    + simpl. rewrite Hs, orb_false_r.
      unfold pretty_N_char. repeat case_match; reflexivity.
Qed.

Lemma pretty_N_free (x : N) : has_char "_" (pretty x) = false.
Proof.
  unfold pretty, pretty_N. case_decide; [reflexivity|].
  apply pretty_N_go_free. reflexivity.
Qed.

(** The decimal string of an integer holds no underscore. *)
Lemma str_free (n : Z) : has_char "_" (str n) = false.
Proof.
  unfold str, pretty, pretty_Z. destruct n as [|p|p].
  - reflexivity.
  - apply (pretty_N_free (N.pos p)).
  - change ("-" +:+ pretty p) with (String "-" (pretty p)). simpl.
    apply (pretty_N_free (N.pos p)).
Qed.

Lemma rsplit2_join (audio_id : string) (a b : Z) :
  rsplit2 (audio_id +:+ "_" +:+ str a +:+ "_" +:+ str b)
  = [audio_id; str a; str b].
Proof.
  unfold rsplit2.
  change (audio_id +:+ "_" +:+ str a +:+ "_" +:+ str b)
    with (audio_id +:+ (String "_" (str a +:+ String "_" (str b)))).
  replace (audio_id +:+ String "_" (str a +:+ String "_" (str b)))
    with ((audio_id +:+ String "_" (str a)) +:+ String "_" (str b)).
  - rewrite (split_last_app "_" _ _ (str_free b)).
    rewrite (split_last_app "_" _ _ (str_free a)). reflexivity.
  - rewrite string_app_assoc, string_app_cons. reflexivity.
Qed.

(** X17. A sub-segment id in the format of [_get_chunks],
    [audio_id + "_" + str(start) + "_" + str(end)], is split back by
    [rsplit("_", 2)] into exactly these three parts, also when the audio
    id holds underscores itself. *)
Theorem rsplit2_chunk_id (audio_id : string) (a b : Z) :
  rsplit2 (audio_id +:+ "_" +:+ str a +:+ "_" +:+ str b)
  = [audio_id; str a; str b].
Proof. apply rsplit2_join. Qed.

(** * From cluster labels to segments *)

Section DoSC_facts.
Variable py_float : string -> option Q.
Variable round4 : Q -> Q.
Variable str_float : Q -> string.

Lemma rsplit2_lookups sub r s e :
  rsplit2 sub !! 0%nat = Some r -> rsplit2 sub !! 1%nat = Some s ->
  rsplit2 sub !! 2%nat = Some e -> rsplit2 sub = [r; s; e].
Proof.
  unfold rsplit2. destruct (split_last "_" sub) as [[a c]|]; [|discriminate].
  destruct (split_last "_" a) as [[a' b]|]; [|discriminate].
  simpl. congruence.
Qed.

Lemma sc_loop_parsed labels : forall prev i ids lol r' out,
  sc_loop py_float prev labels i ids lol = Return (r', out) ->
  exists segs, out = lol ++ segs /\ parsed_from py_float prev labels (drop i ids) segs.
Proof.
  induction labels as [|label labels IH]; intros prev i ids lol r' out; simpl.
  - intros [= _ <-]. exists []. rewrite app_nil_r. done.
  - unfold list_index, parse_float.
    destruct (ids !! i) as [sub|] eqn:Hsub; [|discriminate]. simpl.
    destruct (rsplit2 sub !! 0%nat) as [r|] eqn:H0; [|discriminate]. simpl.
    destruct (rsplit2 sub !! 1%nat) as [s|] eqn:H1; [|discriminate]. simpl.
    destruct (py_float s) as [x|] eqn:Hs; [|discriminate]. simpl.
    destruct (rsplit2 sub !! 2%nat) as [e|] eqn:H2; [|discriminate]. simpl.
    destruct (py_float e) as [y|] eqn:He; [|discriminate]. simpl.
    intros Hrun. apply IH in Hrun as (segs & -> & Hsegs).
    exists (mk_sseg r x y (prev +:+ "_" +:+ str label) :: segs).
    split; [rewrite <- app_assoc; reflexivity|].
    rewrite (drop_S _ _ _ Hsub). simpl.
    split; [|split; [reflexivity | exact Hsegs]].
    exists s, e. split; [apply rsplit2_lookups; done | done].
Qed.

Lemma parsed_from_lookup labels : forall prev ids segs,
  parsed_from py_float prev labels ids segs ->
  length segs = length labels
  /\ forall i seg, segs !! i = Some seg ->
       exists sub s e label,
         ids !! i = Some sub /\ labels !! i = Some label
         /\ rsplit2 sub = [rec_id seg; s; e]
         /\ py_float s = Some (sseg_start seg)
         /\ py_float e = Some (sseg_end seg)
         /\ spkr_id seg
            = match i with
              | O => prev
              | S j => default "" (rec_id <$> segs !! j)
              end +:+ "_" +:+ str label.
Proof.
  induction labels as [|label labels IH]; intros prev ids segs H.
  - destruct segs; [|done]. split; [done|]. intros i seg [=].
  - destruct segs as [|seg0 segs]; [done|]. destruct ids as [|sub ids]; [done|].
    destruct H as ((s & e & Hsp & Hs & He) & Htag & Hrest).
    destruct (IH _ _ _ Hrest) as [Hlen Hall]. split; [simpl; lia|].
    intros [|i] seg Hseg.
    + injection Hseg as <-. exists sub, s, e, label. done.
    + simpl in Hseg. destruct (Hall i seg Hseg)
        as (sub' & s' & e' & label' & Hi & Hl & Hsp' & Hs' & He' & Htag').
      exists sub', s', e', label'. repeat split; try done.
      rewrite Htag'. destruct i; reflexivity.
Qed.

(** X18. When the loop of [do_sc] completes, it has built one segment per
    label; segment [i] carries the recording id and the two times parsed
    from [subseg_ids[i]], and its speaker tag is [str(labels[i])] appended
    to the recording id of the previous sub-segment (to the [rec_id]
    argument for the first one), the local [rec_id] being reassigned only
    after the tag is built. *)
Theorem sc_loop_segments (rec_id0 : string) (labels : list Z)
    (subseg_ids : list string) (r' : string) (lol : list subseg) :
  sc_loop py_float rec_id0 labels 0 subseg_ids [] = Return (r', lol) ->
  length lol = length labels
  /\ forall i seg, lol !! i = Some seg ->
       exists sub s e label,
         subseg_ids !! i = Some sub /\ labels !! i = Some label
         /\ rsplit2 sub = [rec_id seg; s; e]
         /\ py_float s = Some (sseg_start seg)
         /\ py_float e = Some (sseg_end seg)
         /\ spkr_id seg
            = match i with
              | O => rec_id0
              | S j => default "" (rec_id <$> lol !! j)
              end +:+ "_" +:+ str label.
Proof.
  intros Hrun. apply sc_loop_parsed in Hrun as (segs & Heq & Hsegs).
  simpl in Heq. subst lol. rewrite drop_0 in Hsegs.
  apply (parsed_from_lookup labels rec_id0 subseg_ids segs Hsegs).
Qed.

Lemma insert_by_start_length x l :
  length (insert_by_start x l) = S (length l).
Proof.
  induction l as [|y l IH]; simpl; [reflexivity|].
  destruct (Qlt_le_dec _ _); simpl; congruence.
Qed.

Lemma sort_by_start_length lol : length (sort_by_start lol) = length lol.
Proof.
  unfold sort_by_start.
  assert (H : forall acc,
    length (foldl (fun sorted x => insert_by_start x sorted) acc lol)
    = (length acc + length lol)%nat).
  { induction lol as [|x lol IH]; intros acc; simpl; [lia|].
    rewrite IH, insert_by_start_length. lia. }
  apply (H []).
Qed.

(** X20. With fewer than three labels [do_sc] never returns: the merge
    pass leaves at most one segment, on which the overlap pass raises, so
    no RTTM file is written. *)
Theorem do_sc_needs_three_subsegments (labels : list Z) (subseg_ids : list string)
    (out_rttm_file rec_id0 : string) (fs : gmap string string) :
  (length labels < 3)%nat ->
  exists e, do_sc py_float round4 str_float labels subseg_ids out_rttm_file rec_id0 fs
            = Throw e.
Proof.
  intros Hlen. unfold do_sc.
  destruct (sc_loop py_float rec_id0 labels 0 subseg_ids []) as [[r' lol]|e] eqn:Hrun;
    [|eauto].
  apply sc_loop_parsed in Hrun as (segs & -> & Hsegs).
  apply parsed_from_lookup in Hsegs as [Hl _]. simpl.
  pose proof (sort_by_start_length segs) as Hs.
  destruct (sort_by_start segs) as [|sseg rest] eqn:Hsort; [simpl; eauto|].
  simpl. pose proof (merge_loop_length rest sseg []) as Hm.
  simpl in Hs, Hm.
  destruct (fst (merge_loop sseg [] rest)) as [|a [|b out]]; simpl in *;
    [eauto | eauto | lia].
Qed.
End DoSC_facts.

Lemma sc_loop_segments_witness :
  exists r' lol,
    sc_loop digits_float "ES2011a" [1%Z; 0%Z] 0
      ["ES2011a_0_300"; "ES2011a_150_450"] [] = Return (r', lol)
    /\ length lol = 2%nat
    /\ forall i seg, lol !! i = Some seg ->
         exists sub s e label,
           ["ES2011a_0_300"; "ES2011a_150_450"] !! i = Some sub
           /\ [1%Z; 0%Z] !! i = Some label
           /\ rsplit2 sub = [rec_id seg; s; e]
           /\ digits_float s = Some (sseg_start seg)
           /\ digits_float e = Some (sseg_end seg)
           /\ spkr_id seg
              = match i with
                | O => "ES2011a"
                | S j => default "" (rec_id <$> lol !! j)
                end +:+ "_" +:+ str label.
Proof.
  eexists _, _. split; [reflexivity|].
  eapply (sc_loop_segments digits_float "ES2011a" [1%Z; 0%Z]
            ["ES2011a_0_300"; "ES2011a_150_450"]).
  reflexivity.
Defined.

Lemma do_sc_needs_three_subsegments_witness :
  exists e,
    do_sc digits_float exact_round4 exact_str [1%Z; 0%Z]
      ["ES2011a_0_300"; "ES2011a_150_450"] "ES2011a.rttm" "ES2011a" ∅
    = Throw e.
Proof.
  apply do_sc_needs_three_subsegments. simpl. lia.
Defined.

(** * Chunks of an audio file *)

Section Chunks_facts.
Variable float_num_chunks : Q -> Z -> outcome Z.

End Chunks_facts.


(** * The overlap pass keeps every segment of a well-formed input *)




(** * The overlap pass closes every overlap *)

Lemma distribute_loop_app (l1 l2 : list subseg) : forall st,
  distribute_loop st (l1 ++ l2) = distribute_loop (distribute_loop st l1) l2.
Proof.
  induction l1 as [|x l1 IH]; intros st; [reflexivity|]. simpl. apply IH.
Qed.

Lemma distribute_overlap_cons_rest sseg rest :
  rest <> [] ->
  distribute_overlap (sseg :: rest)
  = let st := distribute_loop (mk_dist_state [] sseg None) rest in
    OK (ds_new_lol st ++ [ds_sseg st]).
Proof.
  destruct rest as [|x rest]; [done|]. intros _. apply distribute_overlap_cons2.
Qed.

(** The current sub-segment, when the loop has gone through [rest ++ [x]],
    is [x] up to its start time. *)
Lemma distribute_loop_current rest x st :
  same_tail x (ds_sseg (distribute_loop st (rest ++ [x]))).
Proof.
  rewrite distribute_loop_app. simpl.
  apply (distribute_step_shape (distribute_loop st rest) x).
Qed.

(** The guarded append leaves at the end of the output the segment given,
    or one that compares equal to it. *)
Lemma append_unless_last_snoc new_lol x :
  exists pre c,
    append_unless_last new_lol x = pre ++ [c]
    /\ rec_id c = rec_id x /\ spkr_id c = spkr_id x
    /\ sseg_start c == sseg_start x /\ sseg_end c == sseg_end x.
Proof.
  unfold append_unless_last. destruct (last new_lol) as [prev|] eqn:Hl.
  - destruct (sseg_eqb prev x) eqn:He; simpl.
    + apply last_Some in Hl as [pre ->]. exists pre, prev.
      apply sseg_eqb_true in He. tauto.
    + exists new_lol, x. repeat split; reflexivity.
  - exists new_lol, x. repeat split; reflexivity.
Qed.

Lemma append_unless_last_after pre c x :
  append_unless_last (pre ++ [c]) x = pre ++ [c; x]
  \/ (sseg_eqb c x = true /\ append_unless_last (pre ++ [c]) x = pre ++ [c]).
Proof.
  unfold append_unless_last. rewrite last_snoc.
  destruct (sseg_eqb c x); simpl; [right; done | left].
  rewrite <- app_assoc. reflexivity.
Qed.

Lemma append_unless_last_grows new_lol x :
  exists l, append_unless_last new_lol x = new_lol ++ l.
Proof.
  unfold append_unless_last. destruct (last new_lol) as [prev|];
    [destruct (negb _)|]; eauto. exists []. rewrite app_nil_r. reflexivity.
Qed.

(** What an iteration appends is the current sub-segment up to its end
    time. *)
Lemma distribute_step_appends st next_sseg :
  exists x,
    ds_new_lol (distribute_step st next_sseg)
    = append_unless_last (ds_new_lol st) x
    /\ same_head (ds_sseg st) x.
Proof.
  unfold distribute_step. destruct (is_overlapped _ _); eexists; split;
    try reflexivity; done.
Qed.

Lemma distribute_loop_grows rest : forall st,
  exists l, ds_new_lol (distribute_loop st rest) = ds_new_lol st ++ l.
Proof.
  induction rest as [|x rest IH]; intros st; simpl.
  - exists []. rewrite app_nil_r. reflexivity.
  - destruct (IH (distribute_step st x)) as [l Hl].
    destruct (distribute_step_appends st x) as (y & Hy & _).
    destruct (append_unless_last_grows (ds_new_lol st) y) as [l0 Hl0].
    exists (l0 ++ l). rewrite Hl, Hy, Hl0, app_assoc. reflexivity.
Qed.

Lemma distribute_loop_boundary st cur next_sseg rest :
  same_tail cur (ds_sseg st) ->
  0 <= sseg_end cur - sseg_start next_sseg ->
  let st' := distribute_loop st (next_sseg :: rest) in
  boundary_closed cur next_sseg (ds_new_lol st' ++ [ds_sseg st']).
Proof.
  intros (Hr & He & Hs) Hd. cbn [distribute_loop].
  set (d := sseg_end cur - sseg_start next_sseg) in *.
  assert (Hov : is_overlapped (sseg_end (ds_sseg st)) (sseg_start next_sseg) = true).
  { apply is_overlapped_true. rewrite He. unfold d in Hd. lra. }
  set (cur' := set_end (ds_sseg st) (sseg_end cur - d / 2)).
  set (next' := set_start next_sseg (sseg_start next_sseg + d / 2)).
  assert (Hst1 : distribute_step st next_sseg
                 = mk_dist_state (append_unless_last (ds_new_lol st) cur')
                     next' (Some next')).
  { unfold distribute_step. rewrite Hov. rewrite He. reflexivity. }
  rewrite Hst1. clear Hst1.
  destruct (append_unless_last_snoc (ds_new_lol st) cur')
    as (pre & c & Hnl & Hcr & Hcs & Hcst & Hce).
  rewrite Hnl. simpl in Hcr, Hcs, Hce.
  assert (Hmid : sseg_end c == sseg_start next_sseg + d / 2).
  { rewrite Hce. unfold d. field. }
  destruct rest as [|y rest].
  - exists (length pre), c, next'. cbn [distribute_loop ds_new_lol ds_sseg].
    rewrite <- app_assoc. simpl.
    split; [apply list_lookup_middle; reflexivity|].
    split.
    { left. change (pre ++ c :: [next']) with (pre ++ [c] ++ [next']).
      rewrite app_assoc. apply list_lookup_middle. rewrite length_app. simpl. lia. }
    repeat split; try congruence; try done.
  - cbn [distribute_loop].
    set (st1 := mk_dist_state (pre ++ [c]) next' (Some next')).
    destruct (distribute_step_appends st1 y) as (x & Hx & Hxr & Hxs & Hxk).
    cbn [ds_new_lol ds_sseg st1] in Hx, Hxr, Hxs, Hxk.
    destruct (distribute_loop_grows rest (distribute_step st1 y)) as [l Hl].
    rewrite Hl, Hx.
    destruct (append_unless_last_after pre c x) as [Ha|[Heq Ha]]; rewrite Ha.
    + exists (length pre), c, x.
      split.
      { rewrite <- !app_assoc. apply list_lookup_middle. reflexivity. }
      split.
      { left. replace ((pre ++ [c; x]) ++ l) with ((pre ++ [c]) ++ x :: l)
          by (rewrite <- !app_assoc; reflexivity).
        rewrite <- app_assoc. apply list_lookup_middle.
        rewrite length_app. simpl. lia. }
      rewrite Hxs. simpl.
      repeat split; try congruence; try done.
    + apply sseg_eqb_true in Heq as (Her & Hes & _ & Hek).
      assert (Hxstart : sseg_start x = sseg_start next_sseg + d / 2)
        by (rewrite Hxs; reflexivity).
      rewrite Hxstart in Hes.
      exists (length pre), c, c.
      split.
      { rewrite <- !app_assoc. apply list_lookup_middle. reflexivity. }
      split.
      { right. split; [reflexivity|]. rewrite Hes, Hmid. reflexivity. }
      split; [congruence|]. split; [congruence|].
      split; [rewrite Her, Hxr; reflexivity|].
      split; [rewrite Hek, Hxk; reflexivity|].
      split; [exact Hce|]. split; [exact Hes|].
      rewrite Hes, Hmid. reflexivity.
Qed.

(** C6. For every pair of neighbours [cur], [next] of the list given to
    [distribute_overlap] with overlap [d = cur.end - next.start >= 0], the
    list returned holds [cur] with its end set to [cur.end - d/2] and [next]
    with its start set to [next.start + d/2], and the two times are equal:
    no gap and no overlap is left between them.  The two stand next to each
    other in the returned list, unless the duplicate guard found them equal
    (both of zero length) and kept one. *)
Theorem distribute_overlap_closes_overlap (lol : list subseg) (i : nat)
    (cur next : subseg) :
  lol !! i = Some cur -> lol !! (S i) = Some next ->
  0 <= sseg_end cur - sseg_start next ->
  exists out,
    distribute_overlap lol = OK out
    /\ exists (j : nat) (cur_new next_new : subseg),
         out !! j = Some cur_new
         /\ (out !! (S j) = Some next_new
             \/ (next_new = cur_new /\ sseg_start cur_new == sseg_end cur_new))
         /\ rec_id cur_new = rec_id cur /\ spkr_id cur_new = spkr_id cur
         /\ rec_id next_new = rec_id next /\ spkr_id next_new = spkr_id next
         /\ sseg_end cur_new
            == sseg_end cur - (sseg_end cur - sseg_start next) / 2
         /\ sseg_start next_new
            == sseg_start next + (sseg_end cur - sseg_start next) / 2
         /\ sseg_end cur_new == sseg_start next_new.
Proof.
  intros Hi Hsi Hd.
  pose proof (take_drop_middle lol i cur Hi) as Hsplit.
  assert (Hdrop : drop (S i) lol = next :: drop (S (S i)) lol)
    by (apply drop_S, Hsi).
  rewrite Hdrop in Hsplit. clear Hdrop.
  remember (take i lol) as l1 eqn:E1. remember (drop (S (S i)) lol) as l2 eqn:E2.
  clear E1 E2 Hi Hsi. subst lol.
  destruct l1 as [|s l1'].
  - rewrite app_nil_l, distribute_overlap_cons2. cbv zeta.
    eexists. split; [reflexivity|].
    apply (distribute_loop_boundary (mk_dist_state [] cur None) cur next l2);
      [done | exact Hd].
  - rewrite <- app_comm_cons.
    rewrite distribute_overlap_cons_rest by (destruct l1'; discriminate).
    cbv zeta. eexists. split; [reflexivity|].
    replace (l1' ++ cur :: next :: l2) with ((l1' ++ [cur]) ++ next :: l2)
      by (rewrite <- app_assoc; reflexivity).
    rewrite distribute_loop_app.
    apply (distribute_loop_boundary _ cur next l2); [|exact Hd].
    apply distribute_loop_current.
Qed.

Lemma distribute_overlap_closes_overlap_witness :
  let lol := [ mk_sseg "R1" 0 3 "A"; mk_sseg "R1" 3 5 "B"; mk_sseg "R1" 4 6 "A" ] in
  exists out,
    distribute_overlap lol = OK out
    /\ exists (j : nat) (cur_new next_new : subseg),
         out !! j = Some cur_new
         /\ (out !! (S j) = Some next_new
             \/ (next_new = cur_new /\ sseg_start cur_new == sseg_end cur_new))
         /\ rec_id cur_new = "R1" /\ spkr_id cur_new = "B"
         /\ rec_id next_new = "R1" /\ spkr_id next_new = "A"
         /\ sseg_end cur_new == 5 - (5 - 4) / 2
         /\ sseg_start next_new == 4 + (5 - 4) / 2
         /\ sseg_end cur_new == sseg_start next_new.
Proof.
  intros lol.
  apply (distribute_overlap_closes_overlap lol 1 (mk_sseg "R1" 3 5 "B")
           (mk_sseg "R1" 4 6 "A")); [reflexivity | reflexivity |].
  simpl. lra.
Defined.
